(** * MemoryRelay MCP server: the API client and its guards

    A shallow embedding of [src/client.ts] (retry wrapper, API-key masking,
    the request executor, the content-size guard and the resource operations),
    of the [entity_create] path of [src/server.ts] ([sanitizeHtml]), of the
    log sanitizer of [logger.ts] and of the key rule and the agent
    identifier of [config.ts].

    Conventions of the embedding.
    - A JavaScript string is the list of its UTF-16 code units.
    - An [async] function is a state-passing computation over the world it
      acts on; a rejected promise is the [Throw] outcome.  Effects made
      before a throw persist, as they do in JavaScript.
    - The host (network, [Math.random], and the regular-expression engine
      outside the patterns modelled here) is a record of functions that
      every statement quantifies over.
    - A number is an IEEE 754 double; the whole ones, which are all the
      client prints or multiplies, are given by the integer they hold,
      with the rounding of larger integers written out.
    - Calls to the logger only write to stderr and are left out. *)

From Stdlib Require Import List ZArith NArith Lia Bool String Ascii.
From Stdlib Require Import QArith DecimalString.
Import ListNotations.

Close Scope Q_scope.
Open Scope Z_scope.

(* ===================================================================== *)
(** ** Strings *)
(* ===================================================================== *)

Module Js.

(** A UTF-16 code unit, an integer in the range 0 .. 65535. *)
Definition char16 := N.

Definition jsstring := list char16.

(** A source literal: each ASCII character is its own code unit. *)
Definition lit (s : string) : jsstring :=
  map N_of_ascii (list_ascii_of_string s).

(** [s.length], as a JavaScript number. *)
Definition strlen (s : jsstring) : Z := Z.of_nat (List.length s).

(** [s.startsWith(p)]. *)
Fixpoint starts_with (p s : jsstring) : bool :=
  match p, s with
  | [], _ => true
  | _ :: _, [] => false
  | a :: p', b :: s' => N.eqb a b && starts_with p' s'
  end.

(** [s.includes(p)]: [p] occurs in [s] at some position. *)
Fixpoint includes (p s : jsstring) : bool :=
  starts_with p s ||
  match s with
  | [] => false
  | _ :: s' => includes p s'
  end.

(** [s.substring(0, n)] for a non-negative [n]. *)
Definition substring0 (n : nat) (s : jsstring) : jsstring := firstn n s.

(** Global replacement of a pattern that matches exactly the text [p]
    ([p] non-empty) by the text [r], as [String.prototype.replace] does
    with a [g] regular expression: matches are taken left to right and do
    not overlap.  [skip] counts the code units of the current match that
    are still to be passed over. *)
Fixpoint replace_from (p r : jsstring) (skip : nat) (s : jsstring) : jsstring :=
  match s with
  | [] => []
  | c :: s' =>
      match skip with
      | S k => replace_from p r k s'
      | O =>
          if starts_with p s
          then r ++ replace_from p r (List.length p - 1) s'
          else c :: replace_from p r 0 s'
      end
  end.

Definition replace_all (p r s : jsstring) : jsstring := replace_from p r 0 s.

(** *** Whole numbers as doubles

    A JavaScript number is an IEEE 754 double.  The numbers this program
    prints or computes with are whole (a status, a timeout, a parsed
    header and its product with 1000), and a whole double is given by
    the integer it holds. *)

(** The whole number nearest to [m >= 0] among those with at most 53
    significant bits, a tie going to the even significand: the double
    that holds [m], as long as the result is below [2^1024]. *)
Definition round_to_double (m : Z) : Z :=
  let e := Z.log2 m - 52 in
  if e <=? 0 then m
  else
    let q := Z.shiftr m e in
    let r := Z.land m (Z.ones e) in
    let half := Z.shiftl 1 (e - 1) in
    let q' :=
      if r <? half then q
      else if half <? r then q + 1
      else if Z.even q then q else q + 1 in
    Z.shiftl q' e.

(** From [2^1024] on, the double is [Infinity]. *)
Definition overflows (v : Z) : bool := 2 ^ 1024 <=? v.

(** The decimal digits of [m >= 0]. *)
Definition decimal_digits (m : Z) : jsstring :=
  lit (NilZero.string_of_uint (N.to_uint (Z.to_N m))).

(** The decimal Number::toString prints for the double [v > 0]: among
    the whole numbers the double nearest to which is [v], one with the
    fewest significant digits, that is, a multiple of the highest power
    [10^j] there is one of; of two such the one nearer to [v], and of
    two equally near the one with the even last digit. *)
Fixpoint shortest_decimal (v : Z) (j : nat) : Z :=
  let p := 10 ^ Z.of_nat j in
  let lo := v / p * p in
  let hi := lo + p in
  let fits c := (0 <? c) && (round_to_double c =? v) in
  if fits lo then
    if fits hi then
      if v - lo <? hi - v then lo
      else if hi - v <? v - lo then hi
      else if Z.even (lo / p) then lo else hi
    else lo
  else if fits hi then hi
  else match j with
       | O => v
       | S j' => shortest_decimal v j'
       end.

Fixpoint drop_zeros (s : jsstring) : jsstring :=
  match s with
  | c :: s' => if N.eqb c 48%N then drop_zeros s' else s
  | [] => []
  end.

(** Number::toString of the double nearest to the integer [z]: the
    digits of its shortest decimal when there are 21 at most, and
    otherwise the significant digits, a point after the first when
    there are several, and the exponent. *)
Definition Number_toString (z : Z) : jsstring :=
  let sign := if z <? 0 then lit "-" else [] in
  let v := round_to_double (Z.abs z) in
  if overflows v then sign ++ lit "Infinity"
  else
    let c := shortest_decimal v (List.length (decimal_digits v)) in
    let digits := decimal_digits c in
    let n := List.length digits in
    if (n <=? 21)%nat then sign ++ digits
    else
      let s := rev (drop_zeros (rev digits)) in
      sign
        ++ match s with
           | d :: (_ :: _) as rest => d :: lit "." ++ rest
           | _ => s
           end
        ++ lit "e+" ++ decimal_digits (Z.of_nat n - 1).

(** The [SyntaxCharacter]s of an ECMAScript pattern:
    [^ $ \ . * + ? ( ) [ ] { } |]. *)
Definition isSyntaxCharacter (c : char16) : bool :=
  existsb (N.eqb c) (lit "^$\.*+?()[]{}|").

Definition dollar : char16 := 36%N.

(** A pattern text in which every code unit stands for itself. *)
Definition literal_pattern (p : jsstring) : bool :=
  match p with
  | [] => false
  | _ => forallb (fun c => negb (isSyntaxCharacter c)) p
  end.

(** A replacement text without [$] substitutions. *)
Definition literal_replacement (r : jsstring) : bool :=
  forallb (fun c => negb (N.eqb c dollar)) r.

End Js.
Import Js.

(* ===================================================================== *)
(** ** Errors and outcomes *)
(* ===================================================================== *)

(** A JavaScript [Error] object, by the two properties the code reads. *)
Record Error : Type := mkError { name : jsstring; message : jsstring }.

(** [new Error(msg)]. *)
Definition new_Error (msg : jsstring) : Error := mkError (lit "Error") msg.

(** The outcome of evaluating an expression that may throw. *)
Inductive Result (T : Type) : Type :=
| Ok (v : T)
| Throw (e : Error).
Arguments Ok {T} v.
Arguments Throw {T} e.

(** A number as the client computes with it: [NaN], an infinity, or a
    whole double, given by the integer it holds.  Negative zero is not
    told from zero: both print as [0] and both wait for no time. *)
Inductive number : Type :=
| NaN
| Infinity (negative : bool)
| Int (z : Z).

(** The double nearest to the integer [z]. *)
Definition double_of_Z (z : Z) : number :=
  let v := round_to_double (Z.abs z) in
  if overflows v then Infinity (z <? 0) else Int (Z.sgn z * v).

(** [x * k] for a whole [k]: the exact product, rounded to a double. *)
Definition number_mul (x : number) (k : Z) : number :=
  match x with
  | NaN => NaN
  | Infinity negative =>
      if k =? 0 then NaN else Infinity (xorb negative (k <? 0))
  | Int z => double_of_Z (z * k)
  end.

(** The text a template literal prints for a number. *)
Definition number_toString (x : number) : jsstring :=
  match x with
  | NaN => lit "NaN"
  | Infinity false => lit "Infinity"
  | Infinity true => lit "-Infinity"
  | Int z => Number_toString z
  end.

(* ===================================================================== *)
(** ** [parseInt] *)
(* ===================================================================== *)

(** White space and line terminators that [parseInt] skips. *)
Definition isStrWhiteSpaceChar (c : char16) : bool :=
  existsb (N.eqb c)
    [9; 10; 11; 12; 13; 32; 160; 5760; 8232; 8233; 8239; 8287; 12288; 65279]%N
  || ((8192 <=? c) && (c <=? 8202))%N.

Fixpoint trimStart (s : jsstring) : jsstring :=
  match s with
  | [] => []
  | c :: s' => if isStrWhiteSpaceChar c then trimStart s' else s
  end.

(** The value of a digit in the given radix (10 or 16), if it is one. *)
Definition digit_value (radix : Z) (c : char16) : option Z :=
  let d :=
    if ((48 <=? c) && (c <=? 57))%N then Some (Z.of_N c - 48)
    else if ((97 <=? c) && (c <=? 102))%N then Some (Z.of_N c - 87)
    else if ((65 <=? c) && (c <=? 70))%N then Some (Z.of_N c - 55)
    else None in
  match d with
  | Some v => if v <? radix then Some v else None
  | None => None
  end.

(** The integer denoted by the longest prefix of digits; [acc] is the
    value read so far, [None] while no digit has been read. *)
Fixpoint digits_value (radix : Z) (acc : option Z) (s : jsstring) : option Z :=
  match s with
  | [] => acc
  | c :: s' =>
      match digit_value radix c with
      | Some d =>
          digits_value radix
            (Some (radix * match acc with Some a => a | None => 0 end + d)) s'
      | None => acc
      end
  end.

(** [parseInt(s)] with no radix argument: the double nearest to the
    integer the digits denote.  (For more than 20 significant decimal
    digits the standard allows an engine to read the later digits as
    zeros; here the digits are rounded as they are.) *)
Definition parseInt (s : jsstring) : number :=
  let s1 := trimStart s in
  let '(sign, s2) :=
    match s1 with
    | 45%N :: r => (-1, r)
    | 43%N :: r => (1, r)
    | _ => (1, s1)
    end in
  let '(radix, s3) :=
    match s2 with
    | 48%N :: 120%N :: r => (16, r)
    | 48%N :: 88%N :: r => (16, r)
    | _ => (10, s2)
    end in
  match digits_value radix None s3 with
  | None => NaN
  | Some v => double_of_Z (sign * v)
  end.

(* ===================================================================== *)
(** ** JSON values *)
(* ===================================================================== *)

(** A value as [JSON.parse] yields it or [JSON.stringify] takes it.  A
    number is carried by the decimal text JavaScript prints for it, which
    is all the client does with one; the fields of an object have
    distinct names. *)
#[warnings="-register-all"]
Inductive json : Type :=
| JNull
| JBool (b : bool)
| JNumber (repr : jsstring)
| JString (s : jsstring)
| JArray (items : list json)
| JObject (fields : list (jsstring * json)).

(** Equality of strings, as [===] decides it. *)
Fixpoint jsstring_eqb (a b : jsstring) : bool :=
  match a, b with
  | [], [] => true
  | x :: a', y :: b' => N.eqb x y && jsstring_eqb a' b'
  | _, _ => false
  end.

Fixpoint lookup (k : jsstring) (fields : list (jsstring * json)) : option json :=
  match fields with
  | [] => None
  | (k', v) :: rest => if jsstring_eqb k k' then Some v else lookup k rest
  end.

(** ToBoolean: what [v ? a : b] tests. *)
Definition truthy (v : json) : bool :=
  match v with
  | JNull => false
  | JBool b => b
  | JNumber repr => negb (jsstring_eqb repr (lit "0"))
  | JString s => negb (jsstring_eqb s [])
  | JArray _ => true
  | JObject _ => true
  end.

(** ToString: what a template literal prints for [v].  An array
    prints its items joined by commas ([Array.prototype.join]), a
    [null] item as the empty text.  An object prints as
    [[object Object]] through [Object.prototype.toString], unless it has
    a property of its own named [toString]: the value of that property,
    a parsed value, is not callable, and [valueOf] (the object's own,
    not callable either, or the inherited one, which returns the
    object) gives no primitive, so the conversion throws. *)
Fixpoint ToString (v : json) : Result jsstring :=
  match v with
  | JNull => Ok (lit "null")
  | JBool true => Ok (lit "true")
  | JBool false => Ok (lit "false")
  | JNumber repr => Ok repr
  | JString s => Ok s
  | JArray items =>
      (fix join (l : list json) : Result jsstring :=
         match l with
         | [] => Ok []
         | x :: rest =>
             match match x with JNull => Ok [] | _ => ToString x end with
             | Throw e => Throw e
             | Ok head =>
                 match rest with
                 | [] => Ok head
                 | _ =>
                     match join rest with
                     | Throw e => Throw e
                     | Ok tail => Ok (head ++ lit "," ++ tail)
                     end
                 end
             end
         end) items
  | JObject fields =>
      match lookup (lit "toString") fields with
      | Some _ =>
          Throw (mkError (lit "TypeError")
                   (lit "Cannot convert object to primitive value"))
      | None => Ok (lit "[object Object]")
      end
  end.

(** [v.k] for the property names the client reads ([message], [data]),
    which no built-in prototype defines: [None] is [undefined], and
    reading a property of [null] throws. *)
Definition get_property (v : json) (k : jsstring) : Result (option json) :=
  match v with
  | JNull =>
      Throw (mkError (lit "TypeError")
               (lit "Cannot read properties of null (reading '" ++ k ++ lit "')"))
  | JObject fields => Ok (lookup k fields)
  | _ => Ok None
  end.

(** [(errorData.message ? ` - ${errorData.message}` : '')]: reading
    the property throws when [errorData] is [null], and printing it
    throws when it does not convert to a string. *)
Definition error_detail (errorData : json) : Result jsstring :=
  match get_property errorData (lit "message") with
  | Throw e => Throw e
  | Ok None => Ok []
  | Ok (Some m) =>
      if truthy m then
        match ToString m with
        | Throw e => Throw e
        | Ok text => Ok (lit " - " ++ text)
        end
      else Ok []
  end.

(** An object literal; a property whose value is [undefined] ([None]) is
    not serialised. *)
Definition object (props : list (jsstring * option json)) : json :=
  JObject
    ((fix keep (l : list (jsstring * option json)) : list (jsstring * json) :=
        match l with
        | [] => []
        | (k, Some v) :: rest => (k, v) :: keep rest
        | (_, None) :: rest => keep rest
        end) props).

(** A [Record<string, string>] as a JSON object. *)
Definition record_json (r : list (jsstring * jsstring)) : json :=
  JObject (map (fun kv => (fst kv, JString (snd kv))) r).

(* ===================================================================== *)
(** ** Computations: state passing with exceptions *)
(* ===================================================================== *)

(** An [async] computation over a state [S]: it ends with a value or a
    thrown error, and with the state it left behind either way. *)
Definition M (S T : Type) : Type := S -> Result T * S.

Definition ret {S T} (v : T) : M S T := fun s => (Ok v, s).

Definition throw {S T} (e : Error) : M S T := fun s => (Throw e, s).

Definition bind {S A B} (c : M S A) (k : A -> M S B) : M S B :=
  fun s =>
    match c s with
    | (Ok v, s') => k v s'
    | (Throw e, s') => (Throw e, s')
    end.

(** [try { c } catch (error) { handler error }]. *)
Definition try_catch {S T} (c : M S T) (handler : Error -> M S T) : M S T :=
  fun s =>
    match c s with
    | (Ok v, s') => (Ok v, s')
    | (Throw e, s') => handler e s'
    end.

(** A pure expression that may throw, evaluated inside a computation. *)
Definition lift {S T} (r : Result T) : M S T := fun s => (r, s).

Declare Scope js_scope.
Delimit Scope js_scope with js.
Notation "x <- c ;; k" := (bind c (fun x => k))
  (at level 61, c at next level, right associativity) : js_scope.
Notation "c ;; k" := (bind c (fun _ => k))
  (at level 61, right associativity) : js_scope.
Open Scope js_scope.

(* ===================================================================== *)
(** ** Retry policy ([withRetry]) *)
(* ===================================================================== *)

Definition MAX_RETRIES : Z := 3.
Definition INITIAL_DELAY_MS : Z := 1000.
Definition MAX_CONTENT_SIZE : Z := 50 * 1024.

(** The test that stops the retries:
    [message.includes('401') || ... '403' ... '404' ... '400']. *)
Definition dont_retry (lastError : Error) : bool :=
  includes (lit "401") (message lastError)
  || includes (lit "403") (message lastError)
  || includes (lit "404") (message lastError)
  || includes (lit "400") (message lastError).

Section WithRetry.
Context {S T : Type}.

(** [await new Promise(resolve => setTimeout(resolve, ms))]. *)
Variable sleep : Q -> S -> S.
(** [Math.random()]. *)
Variable random : S -> Q * S.
(** The wrapped operation. *)
Variable fn : M S T.
Variable retries : Z.

(** The wait between two attempts: draw the jitter, then sleep. *)
Definition backoff (attempt : Z) (s : S) : S :=
  let delay := INITIAL_DELAY_MS * 2 ^ attempt in
  let '(r, s1) := random s in
  let jitter := (r * (3 # 10) * inject_Z delay)%Q in
  sleep (inject_Z delay + jitter)%Q s1.

(** The [for (attempt = 0; attempt <= retries; attempt++)] loop, by the
    number of iterations still to run, followed by the [throw] after
    it.  Every value thrown in this program is an [Error], so
    [lastError] is the caught value itself. *)
Fixpoint retry_loop (iterations : nat) (attempt : Z)
    (lastError : option Error) : M S T :=
  match iterations with
  | O =>
      throw (match lastError with
             | Some e => e
             | None => new_Error (lit "Retry failed")
             end)
  | Datatypes.S k =>
      fun s =>
        match fn s with
        | (Ok v, s1) => (Ok v, s1)
        | (Throw error, s1) =>
            let lastError := error in
            if dont_retry lastError then (Throw lastError, s1)
            else if attempt =? retries then (Throw lastError, s1)
            else retry_loop k (attempt + 1) (Some lastError)
                   (backoff attempt s1)
        end
  end.

Definition withRetry : M S T :=
  retry_loop (Z.to_nat (retries + 1)) 0 None.

End WithRetry.

(** An operation instrumented with the number of times it was invoked,
    as a test double counts its calls. *)
Section Counted.
Context {S T : Type}.

Definition counted (fn : M S T) : M (S * nat) T :=
  fun '(s, n) => let '(r, s') := fn s in (r, (s', Datatypes.S n)).

Definition counted_sleep (sleep : Q -> S -> S) (ms : Q) : S * nat -> S * nat :=
  fun '(s, n) => (sleep ms s, n).

Definition counted_random (random : S -> Q * S) : S * nat -> Q * (S * nat) :=
  fun '(s, n) => let '(r, s') := random s in (r, (s', n)).

End Counted.

(** An operation instrumented with the outcomes of its invocations, the
    most recent first, as a test double records the results of its
    calls. *)
Section Logged.
Context {S T : Type}.

Definition logged (fn : M S T) : M (S * list (Result T)) T :=
  fun '(s, log) => let '(r, s') := fn s in (r, (s', r :: log)).

Definition logged_sleep (sleep : Q -> S -> S) (ms : Q)
    : S * list (Result T) -> S * list (Result T) :=
  fun '(s, log) => (sleep ms s, log).

Definition logged_random (random : S -> Q * S)
    : S * list (Result T) -> Q * (S * list (Result T)) :=
  fun '(s, log) => let '(r, s') := random s in (r, (s', log)).

End Logged.

(* ===================================================================== *)
(** ** The client's world: network, timers, configuration *)
(* ===================================================================== *)

(** [ClientConfig] of [types.ts]; the timeout is a whole number of
    milliseconds, as [parseInt] gives it to [loadConfig]. *)
Record ClientConfig : Type := mkConfig {
  apiKey : jsstring;
  apiUrl : jsstring;
  agentId : jsstring;
  timeout : Z
}.

(** The second argument of [fetch] (the abort signal apart). *)
Record RequestInit : Type := mkInit {
  method : jsstring;
  headers : list (jsstring * jsstring);
  body : option json   (* the value handed to [JSON.stringify] *)
}.

(** A [Response], by what the client reads of it. *)
Record Response : Type := mkResponse {
  status : Z;
  statusText : jsstring;
  retryAfter : option jsstring;   (* [headers.get('Retry-After')] *)
  json_body : Result json         (* the outcome of [response.json()] *)
}.

(** [response.ok]: the status is in the range 200-299. *)
Definition ok (r : Response) : bool :=
  (200 <=? status r) && (status r <=? 299).

(** How a call of [fetch] (with the body read) ends: the promise rejects
    (a network failure, or an [AbortError] when the timeout fires), or a
    response arrives. *)
Inductive FetchOutcome : Type :=
| Rejected (e : Error)
| Responded (r : Response).

(** What the client does to the outside, in the order it happens. *)
Inductive Event : Type :=
| EvFetch (url : jsstring) (init : RequestInit)
| EvRateLimitSleep (waitMs : number)
| EvBackoffSleep (ms : Q).

(** The state a computation of the client runs in: the events so far,
    most recent first, and the number of [Math.random] draws made. *)
Record World : Type := mkWorld {
  trace : list Event;
  draws : nat
}.

Definition initial_world : World := mkWorld [] 0.

(** The value [healthCheck] resolves to. *)
Module Health.
Record t : Type := mk { status : jsstring; message : jsstring }.
End Health.

Definition is_fetch (e : Event) : bool :=
  match e with
  | EvFetch _ _ => true
  | _ => false
  end.

(** The number of network attempts made so far. *)
Definition fetch_count (w : World) : nat :=
  List.length (filter is_fetch (trace w)).

Definition record_event (e : Event) (w : World) : World :=
  mkWorld (e :: trace w) (draws w).

(** The host the client runs on.  [fetch n url init] is how the call of
    [fetch] made after [n] earlier ones ends; [Math_random n] is the
    draw made after [n] earlier ones; [regexp_replace p r s] is what
    [s.replace(new RegExp(p, 'g'), r)] evaluates to when [p] is outside
    the patterns modelled here or [r] is not literal (it may throw a
    [SyntaxError]). *)
Record Host : Type := mkHost {
  fetch : nat -> jsstring -> RequestInit -> FetchOutcome;
  Math_random : nat -> Q;
  regexp_replace : jsstring -> jsstring -> jsstring -> Result jsstring
}.

Definition sleep (ms : Q) (w : World) : World :=
  record_event (EvBackoffSleep ms) w.

Definition random (H : Host) (w : World) : Q * World :=
  (Math_random H (draws w), mkWorld (trace w) (Datatypes.S (draws w))).

(* ===================================================================== *)
(** ** Secret redactor ([maskApiKey]) *)
(* ===================================================================== *)

(** Beyond the literal patterns, those are modelled in which [+] is the
    only syntax character and each [+] follows a code unit that is none:
    a sequence of terms [c] and [c+]. *)
Inductive Term : Type :=
| Char (c : char16)
| Plus (c : char16).

Fixpoint parse_terms (p : jsstring) : option (list Term) :=
  match p with
  | [] => Some []
  | c :: rest =>
      if isSyntaxCharacter c then None
      else
        match rest with
        | 43%N :: rest' => option_map (cons (Plus c)) (parse_terms rest')
        | _ => option_map (cons (Char c)) (parse_terms rest)
        end
  end.

(** The number of leading code units of [s] equal to [c]. *)
Fixpoint run_of (c : char16) (s : jsstring) : nat :=
  match s with
  | x :: s' => if N.eqb x c then Datatypes.S (run_of c s') else O
  | [] => O
  end.

(** The length of the match of the terms at the head of [s], if there
    is one.  [c+] is greedy: it takes the whole run of [c], and gives
    back one code unit at a time, down to one, until the rest matches. *)
Fixpoint match_terms (terms : list Term) (s : jsstring) : option nat :=
  match terms with
  | [] => Some O
  | Char c :: terms' =>
      match s with
      | x :: s' =>
          if N.eqb x c then option_map Datatypes.S (match_terms terms' s')
          else None
      | [] => None
      end
  | Plus c :: terms' =>
      (fix give_back (k : nat) : option nat :=
         match k with
         | O => None
         | Datatypes.S k' =>
             match match_terms terms' (skipn k s) with
             | Some n => Some (k + n)%nat
             | None => give_back k'
             end
         end) (run_of c s)
  end.

(** Global replacement of the matches of the terms (one at least, so
    that no match is empty) by the text [r]; [skip] counts the code
    units of the current match still to be passed over. *)
Fixpoint replace_terms (terms : list Term) (r : jsstring) (skip : nat)
    (s : jsstring) : jsstring :=
  match s with
  | [] => []
  | c :: s' =>
      match skip with
      | Datatypes.S k => replace_terms terms r k s'
      | O =>
          match match_terms terms s with
          | Some (Datatypes.S n) => r ++ replace_terms terms r n s'
          | _ => c :: replace_terms terms r 0 s'
          end
      end
  end.

(** [s.replace(new RegExp(p, 'g'), r)]. *)
Definition RegExp_replace (H : Host) (p r s : jsstring) : Result jsstring :=
  if literal_pattern p && literal_replacement r
  then Ok (replace_all p r s)
  else
    match parse_terms p with
    | Some (t :: terms) =>
        if literal_replacement r
        then Ok (replace_terms (t :: terms) r 0 s)
        else regexp_replace H p r s
    | _ => regexp_replace H p r s
    end.

Definition maskApiKey (H : Host) (message apiKey : jsstring) : Result jsstring :=
  match apiKey with
  | [] => Ok message
  | _ =>
      let maskedKey := substring0 8 apiKey ++ lit "***" in
      RegExp_replace H apiKey maskedKey message
  end.

(* ===================================================================== *)
(** ** Request executor ([request]) *)
(* ===================================================================== *)

Section Request.
Variable H : Host.
Variable config : ClientConfig.

(** The [catch (error)] block of one attempt. *)
Definition on_error (error : Error) : M World json :=
  if jsstring_eqb (name error) (lit "AbortError")
  then throw (new_Error (lit "Request timeout after "
                           ++ Number_toString (timeout config) ++ lit "ms"))
  else
    match maskApiKey H (message error) (apiKey config) with
    | Ok masked => throw (mkError (name error) masked)
    | Throw e => throw e
    end.

(** [await response.json().catch(() => ({}))]. *)
Definition error_body (response : Response) : json :=
  match json_body response with
  | Ok v => v
  | Throw _ => JObject []
  end.

(** The branch taken on a response that is not [ok]. *)
Definition on_failure_status (response : Response) : M World json :=
  if status response =? 429 then
    let waitMs :=
      match retryAfter response with
      | Some (c :: h) => number_mul (parseInt (c :: h)) 1000
      | _ => Int 5000
      end in
    fun w =>
      (Throw (new_Error (lit "Rate limited: 429 - Retry after "
                           ++ number_toString waitMs ++ lit "ms")),
       record_event (EvRateLimitSleep waitMs) w)
  else
    let errorData := error_body response in
    detail <- lift (error_detail errorData) ;;
    let errorMsg :=
      lit "API request failed: " ++ Number_toString (status response)
        ++ lit " " ++ statusText response ++ detail in
    masked <- lift (maskApiKey H errorMsg (apiKey config)) ;;
    throw (new_Error masked).

(** The options [fetch] is called with. *)
Definition request_init (method : jsstring) (body : option json) : RequestInit :=
  mkInit method
    [ (lit "Content-Type", lit "application/json");
      (lit "Authorization", lit "Bearer " ++ apiKey config);
      (lit "User-Agent", lit "@memoryrelay/mcp-server") ]
    match body with
    | Some v => if truthy v then Some v else None
    | None => None
    end.

(** One attempt: the function handed to [withRetry]. *)
Definition attempt (method path : jsstring) (body : option json)
  : M World json :=
  let url := apiUrl config ++ path in
  try_catch
    (fun w =>
       let w1 := record_event (EvFetch url (request_init method body)) w in
       match fetch H (fetch_count w) url (request_init method body) with
       | Rejected e => (Throw e, w1)
       | Responded response =>
           if negb (ok response)
           then on_failure_status response w1
           else (json_body response, w1)
       end)
    on_error.

Definition request (method path : jsstring) (body : option json)
  : M World json :=
  withRetry sleep (random H) (attempt method path body) MAX_RETRIES.

(* =================================================================== *)
(** ** Resource operations *)
(* =================================================================== *)

Definition validateContentSize (content : jsstring) : Result unit :=
  if strlen content >? MAX_CONTENT_SIZE
  then Throw (new_Error (lit "Content exceeds maximum size of "
                           ++ Number_toString MAX_CONTENT_SIZE
                           ++ lit " bytes"))
  else Ok tt.

Definition storeMemory (content : jsstring)
    (metadata : option (list (jsstring * jsstring))) : M World json :=
  lift (validateContentSize content) ;;
  request (lit "POST") (lit "/v1/memories/memories")
    (Some (object
             [ (lit "content", Some (JString content));
               (lit "metadata", option_map record_json metadata);
               (lit "agent_id", Some (JString (agentId config))) ])).

(** [limit] and [threshold] are numbers, given by their decimal text;
    [None] is an omitted argument, which takes the default. *)
Definition searchMemories (query : jsstring)
    (limit threshold : option jsstring) : M World (option json) :=
  let limit := match limit with Some l => l | None => lit "10" end in
  let threshold := match threshold with Some t => t | None => lit "0.5" end in
  lift (validateContentSize query) ;;
  response <-
    request (lit "POST") (lit "/v1/memories/memories/search")
      (Some (object
               [ (lit "query", Some (JString query));
                 (lit "limit", Some (JNumber limit));
                 (lit "threshold", Some (JNumber threshold));
                 (lit "agent_id", Some (JString (agentId config))) ])) ;;
  lift (get_property response (lit "data")).

Definition updateMemory (id content : jsstring)
    (metadata : option (list (jsstring * jsstring))) : M World json :=
  lift (validateContentSize content) ;;
  request (lit "PATCH") (lit "/v1/memories/memories/" ++ id)
    (Some (object
             [ (lit "content", Some (JString content));
               (lit "metadata", option_map record_json metadata) ])).

(** [limit] and [offset] are numbers, given by their decimal text. *)
Definition listMemories (limit offset : option jsstring) : M World json :=
  let limit := match limit with Some l => l | None => lit "20" end in
  let offset := match offset with Some o => o | None => lit "0" end in
  request (lit "GET")
    (lit "/v1/memories/memories?limit=" ++ limit ++ lit "&offset=" ++ offset)
    None.

Definition getMemory (id : jsstring) : M World json :=
  request (lit "GET") (lit "/v1/memories/memories/" ++ id) None.

Definition deleteMemory (id : jsstring) : M World unit :=
  request (lit "DELETE") (lit "/v1/memories/memories/" ++ id) None ;;
  ret tt.

(** [type] is one of the [EntityType] strings. *)
Definition createEntity (name type : jsstring)
    (metadata : option (list (jsstring * jsstring))) : M World json :=
  lift (validateContentSize name) ;;
  request (lit "POST") (lit "/v1/entities")
    (Some (object
             [ (lit "name", Some (JString name));
               (lit "type", Some (JString type));
               (lit "metadata", option_map record_json metadata) ])).

(** [relationship] defaults to ['mentioned_in'] when omitted. *)
Definition linkEntity (entityId memoryId : jsstring)
    (relationship : option jsstring) : M World unit :=
  let relationship :=
    match relationship with Some r => r | None => lit "mentioned_in" end in
  request (lit "POST") (lit "/v1/entities/links")
    (Some (object
             [ (lit "entity_id", Some (JString entityId));
               (lit "memory_id", Some (JString memoryId));
               (lit "relationship", Some (JString relationship)) ])) ;;
  ret tt.

Definition getEntity (id : jsstring) : M World json :=
  request (lit "GET") (lit "/v1/entities/" ++ id) None.

Definition listEntities (limit offset : option jsstring) : M World json :=
  let limit := match limit with Some l => l | None => lit "20" end in
  let offset := match offset with Some o => o | None => lit "0" end in
  request (lit "GET")
    (lit "/v1/entities?limit=" ++ limit ++ lit "&offset=" ++ offset)
    None.

Definition deleteEntity (id : jsstring) : M World unit :=
  request (lit "DELETE") (lit "/v1/entities/" ++ id) None ;;
  ret tt.

Definition healthCheck : M World Health.t :=
  try_catch
    (request (lit "GET") (lit "/v1/health") None ;;
     ret (Health.mk (lit "healthy") (lit "API connection successful")))
    (fun error =>
       let errorMsg := message error in
       ret (Health.mk (lit "unhealthy")
              (lit "API connection failed: " ++ errorMsg))).

End Request.

(* ===================================================================== *)
(** ** Tool dispatch: [entity_create] ([server.ts]) *)
(* ===================================================================== *)

Definition sanitizeHtml (str : jsstring) : jsstring :=
  replace_all (lit "/") (lit "&#x2F;")
    (replace_all (lit "'") (lit "&#x27;")
       (replace_all [34%N] (lit "&quot;")
          (replace_all (lit ">") (lit "&gt;")
             (replace_all (lit "<") (lit "&lt;")
                (replace_all (lit "&") (lit "&amp;") str))))).

Definition entity_types : list jsstring :=
  [ lit "person"; lit "place"; lit "organization"; lit "project";
    lit "concept"; lit "other" ].

(** The arguments [entitySchema.parse] returns. *)
Record EntityInput : Type := mkEntityInput {
  input_name : jsstring;
  input_type : jsstring;
  input_metadata : option (list (jsstring * jsstring))
}.

(** [z.record(z.string())] on the fields of an object. *)
Fixpoint string_record (fields : list (jsstring * json))
    : option (list (jsstring * jsstring)) :=
  match fields with
  | [] => Some []
  | (k, JString v) :: rest =>
      match string_record rest with
      | Some r => Some ((k, v) :: r)
      | None => None
      end
  | _ => None
  end.

(** [entitySchema.parse(args)]: the validated input, or [None] when zod
    throws a [ZodError] (whose list of issues is not modelled). *)
Definition entitySchema_parse (args : json) : option EntityInput :=
  match args with
  | JObject fields =>
      match lookup (lit "name") fields, lookup (lit "type") fields with
      | Some (JString name), Some (JString type) =>
          if (1 <=? strlen name) && (strlen name <=? 200)
             && existsb (jsstring_eqb type) entity_types
          then
            match lookup (lit "metadata") fields with
            | None => Some (mkEntityInput name type None)
            | Some (JObject m) =>
                match string_record m with
                | Some r => Some (mkEntityInput name type (Some r))
                | None => None
                end
            | Some _ => None
            end
          else None
      | _, _ => None
      end
  | _ => None
  end.

(** The [case 'entity_create'] block up to the entity the client
    returns: [None] when validation throws, otherwise the outcome of
    [createEntity] on the sanitized name. *)
Definition entity_create (H : Host) (config : ClientConfig) (args : json)
    : World -> option (Result json) * World :=
  fun w =>
    match entitySchema_parse args with
    | None => (None, w)
    | Some validatedInput =>
        let sanitizedName := sanitizeHtml (input_name validatedInput) in
        let '(r, w') :=
          createEntity H config sanitizedName (input_type validatedInput)
            (input_metadata validatedInput) w in
        (Some r, w')
    end.

(** The names sent to the server as the [name] property of a request
    body, over a trace. *)
Definition transmitted_name (e : Event) : option jsstring :=
  match e with
  | EvFetch _ init =>
      match body init with
      | Some (JObject fields) =>
          match lookup (lit "name") fields with
          | Some (JString n) => Some n
          | _ => None
          end
      | _ => None
      end
  | _ => None
  end.

(* ===================================================================== *)
(** ** UTF-8 size of a string *)
(* ===================================================================== *)

(** The number of bytes of the UTF-8 encoding of a string, as
    [Buffer.byteLength] and [TextEncoder] count them: one to three bytes
    for a code unit outside the surrogate range, four for a surrogate
    pair, three for a lone surrogate (encoded as U+FFFD).  The client
    never computes it; it is the measure the size limit is compared
    with. *)
Fixpoint utf8_byte_length (s : jsstring) : Z :=
  match s with
  | [] => 0
  | c :: s' =>
      if (c <? 128)%N then 1 + utf8_byte_length s'
      else if (c <? 2048)%N then 2 + utf8_byte_length s'
      else if ((55296 <=? c) && (c <=? 56319))%N then
        match s' with
        | d :: s'' =>
            if ((56320 <=? d) && (d <=? 57343))%N
            then 4 + utf8_byte_length s''
            else 3 + utf8_byte_length s'
        | [] => 3
        end
      else 3 + utf8_byte_length s'
  end.

(** The calls of [fetch] in a world, oldest first, each by its method
    and URL. *)
Definition fetch_call (e : Event) : list (jsstring * jsstring) :=
  match e with
  | EvFetch url init => [ (method init, url) ]
  | _ => []
  end.

Definition fetch_calls (w : World) : list (jsstring * jsstring) :=
  flat_map fetch_call (rev (trace w)).

(* ===================================================================== *)
(** ** The public methods of the client, as one type *)
(* ===================================================================== *)

(** A call of one of the public methods of [MemoryRelayClient]. *)
Inductive ClientCall : Type :=
| StoreMemory (content : jsstring) (metadata : option (list (jsstring * jsstring)))
| SearchMemories (query : jsstring) (limit threshold : option jsstring)
| ListMemories (limit offset : option jsstring)
| GetMemory (id : jsstring)
| UpdateMemory (id content : jsstring)
    (metadata : option (list (jsstring * jsstring)))
| DeleteMemory (id : jsstring)
| CreateEntity (name type : jsstring)
    (metadata : option (list (jsstring * jsstring)))
| LinkEntity (entityId memoryId : jsstring) (relationship : option jsstring)
| GetEntity (id : jsstring)
| ListEntities (limit offset : option jsstring)
| DeleteEntity (id : jsstring)
| HealthCheck.

(** A computation with its value dropped. *)
Definition discard {S T} (c : M S T) : M S unit := c ;; ret tt.

(** The call performed, by whether it throws and what it does to the
    world. *)
Definition perform (H : Host) (config : ClientConfig) (call : ClientCall)
    : M World unit :=
  match call with
  | StoreMemory content metadata =>
      discard (storeMemory H config content metadata)
  | SearchMemories query limit threshold =>
      discard (searchMemories H config query limit threshold)
  | ListMemories limit offset => discard (listMemories H config limit offset)
  | GetMemory id => discard (getMemory H config id)
  | UpdateMemory id content metadata =>
      discard (updateMemory H config id content metadata)
  | DeleteMemory id => deleteMemory H config id
  | CreateEntity name type metadata =>
      discard (createEntity H config name type metadata)
  | LinkEntity entityId memoryId relationship =>
      linkEntity H config entityId memoryId relationship
  | GetEntity id => discard (getEntity H config id)
  | ListEntities limit offset => discard (listEntities H config limit offset)
  | DeleteEntity id => deleteEntity H config id
  | HealthCheck => discard (healthCheck H config)
  end.

(* ===================================================================== *)
(** ** Logger ([logger.ts]) *)
(* ===================================================================== *)

Module Logger.

(** The length of the longest prefix of [s] made of code units in the
    class [P]: what a greedy [[...]+] consumes. *)
Fixpoint run_length (P : char16 -> bool) (s : jsstring) : nat :=
  match s with
  | [] => O
  | c :: s' => if P c then S (run_length P s') else O
  end.

Definition in_range (lo hi c : char16) : bool := ((lo <=? c) && (c <=? hi))%N.

Definition is_alnum (c : char16) : bool :=
  in_range 97%N 122%N c || in_range 65%N 90%N c || in_range 48%N 57%N c.

(** The class [[a-zA-Z0-9_-]]. *)
Definition is_key_char (c : char16) : bool :=
  is_alnum c || N.eqb c 95%N || N.eqb c 45%N.

(** The class [[a-zA-Z0-9_\-./]]. *)
Definition is_path_char (c : char16) : bool :=
  is_key_char c || N.eqb c 46%N || N.eqb c 47%N.

(** A matcher gives the length of the match of a pattern at the head of
    a text, [O] when there is none (no pattern here matches the empty
    text). *)
Definition matcher : Type := jsstring -> nat.

(** [/mem_[a-zA-Z0-9_-]+/]: [mem_], then the longest run of key
    characters, one at least. *)
Definition key_match : matcher :=
  fun s =>
    if starts_with (lit "mem_") s
    then match run_length is_key_char (skipn 4 s) with
         | O => O
         | S n => (4 + S n)%nat
         end
    else O.

(** [(ts|js|json)] at the head of a text, after a dot: the alternatives
    are tried in this order and the first that fits is taken. *)
Definition extension_at (s : jsstring) : option nat :=
  match s with
  | 46%N :: s' =>
      if starts_with (lit "ts") s' then Some 3%nat
      else if starts_with (lit "js") s' then Some 3%nat
      else if starts_with (lit "json") s' then Some 5%nat
      else None
  | _ => None
  end.

(** The greedy run of path characters gives back one code unit at a
    time, from [k] down to one, until an extension follows it. *)
Fixpoint backtrack (t : jsstring) (k : nat) : nat :=
  match k with
  | O => O
  | S k' =>
      match extension_at (skipn k t) with
      | Some e => (1 + k + e)%nat
      | None => backtrack t k'
      end
  end.

(** [/\/[a-zA-Z0-9_\-./]+\.(ts|js|json)/]. *)
Definition path_match : matcher :=
  fun s =>
    match s with
    | 47%N :: t => backtrack t (run_length is_path_char t)
    | _ => O
    end.

Definition is_space (c : char16) : bool := isStrWhiteSpaceChar c.

(** [/at\s+[^\s]+\s+\([^)]+\)/]: each run is followed by a code unit
    outside its class, so each is consumed whole. *)
Definition location_match : matcher :=
  fun s =>
    if starts_with (lit "at") s then
      let t := skipn 2 s in
      let w1 := run_length is_space t in
      let t1 := skipn w1 t in
      let n1 := run_length (fun c => negb (is_space c)) t1 in
      let t2 := skipn n1 t1 in
      let w2 := run_length is_space t2 in
      let t3 := skipn w2 t2 in
      match w1, n1, w2, t3 with
      | S _, S _, S _, 40%N :: t4 =>
          let n2 := run_length (fun c => negb (N.eqb c 41%N)) t4 in
          match n2, skipn n2 t4 with
          | S _, 41%N :: _ => (2 + w1 + n1 + w2 + 1 + n2 + 1)%nat
          | _, _ => O
          end
      | _, _, _, _ => O
      end
    else O.

(** [s.replace(/.../g, r)] for the pattern of matcher [m] and a
    replacement [r] without [$]: matches are taken left to right and do
    not overlap; [skip] counts the code units of the current match still
    to be passed over. *)
Fixpoint replace_from (m : matcher) (r : jsstring) (skip : nat) (s : jsstring)
    : jsstring :=
  match s with
  | [] => []
  | c :: s' =>
      match skip with
      | S k => replace_from m r k s'
      | O =>
          match m s with
          | O => c :: replace_from m r 0 s'
          | S n => r ++ replace_from m r n s'
          end
      end
  end.

Definition replace (m : matcher) (r s : jsstring) : jsstring :=
  replace_from m r 0 s.

Definition sanitize (message : jsstring) : jsstring :=
  let sanitized := message in
  let sanitized := replace key_match (lit "mem_****") sanitized in
  let sanitized := replace path_match (lit "<file>") sanitized in
  let sanitized := replace location_match (lit "at <location>") sanitized in
  sanitized.

Inductive LogLevel : Type := debug | info | warn | error.

Definition LOG_LEVELS (level : LogLevel) : Z :=
  match level with
  | debug => 0
  | info => 1
  | warn => 2
  | error => 3
  end.

(** [level.toUpperCase()]. *)
Definition toUpperCase (level : LogLevel) : jsstring :=
  match level with
  | debug => lit "DEBUG"
  | info => lit "INFO"
  | warn => lit "WARN"
  | error => lit "ERROR"
  end.

(** [format]: [timestamp] is [new Date().toISOString()], and [data] is
    the text [JSON.stringify(data, null, 2)], [None] when no data is
    given. *)
Definition format (timestamp : jsstring) (level : LogLevel)
    (message : jsstring) (data : option jsstring) : jsstring :=
  let sanitizedMessage := sanitize message in
  let output :=
    lit "[" ++ timestamp ++ lit "] [" ++ toUpperCase level ++ lit "] "
      ++ sanitizedMessage in
  match data with
  | Some text => output ++ [10%N] ++ sanitize text
  | None => output
  end.

(** The methods [debug], [info], [warn] and [error] of a logger of
    level [minLevel]: the line written to stderr, if one is. *)
Definition log (minLevel : LogLevel) (timestamp : jsstring) (level : LogLevel)
    (message : jsstring) (data : option jsstring) : option jsstring :=
  if LOG_LEVELS minLevel <=? LOG_LEVELS level
  then Some (format timestamp level message data)
  else None.

End Logger.

(* ===================================================================== *)
(** ** Configuration ([config.ts]) *)
(* ===================================================================== *)

(** The rule of [configSchema] for [apiKey]:
    [z.string().startsWith('mem_').min(20)]. *)
Definition apiKey_schema (apiKey : jsstring) : bool :=
  starts_with (lit "mem_") apiKey && (20 <=? strlen apiKey).

(** [getAgentId]: [agentId] is [config.agentId] and [HOSTNAME] the
    environment variable, [None] when they are not set. *)
Definition getAgentId (agentId HOSTNAME : option jsstring) : jsstring :=
  match agentId with
  | Some (c :: id) => c :: id
  | _ =>
      let hostname :=
        match HOSTNAME with
        | Some (c :: h) => c :: h
        | _ => lit "unknown"
        end in
      lit "agent-" ++ firstn 8 hostname
  end.

(* ===================================================================== *)
(** ** Scenarios *)
(* ===================================================================== *)

(** Hosts and configurations of the kind the test suite sets up: a
    network that answers from a script of outcomes, one per call, then
    with a default. *)
Module Scenario.

(** An engine that rejects every pattern handed to it. *)
Definition no_engine (p r s : jsstring) : Result jsstring :=
  Throw (mkError (lit "SyntaxError") (lit "Invalid regular expression")).

Definition scripted (script : list FetchOutcome) (default : FetchOutcome)
    : Host :=
  mkHost (fun n _ _ => nth n script default) (fun _ => (1 # 2)%Q) no_engine.

(** A host on which every call of [fetch] is refused. *)
Definition offline : Host :=
  scripted []
    (Rejected (mkError (lit "TypeError") (lit "Connection refused"))).

Definition test_config : ClientConfig :=
  mkConfig (lit "mem_test_1234567890abcdef") (lit "https://api.memoryrelay.net")
    (lit "test-agent") 5000.

Definition respond (status : Z) (statusText : string)
    (retryAfter : option string) (data : json) : FetchOutcome :=
  Responded (mkResponse status (lit statusText) (option_map lit retryAfter)
               (Ok data)).

Definition stored_memory : json :=
  JObject [ (lit "id", JString (lit "mem-123"));
            (lit "content", JString (lit "test")) ].

Definition aborted : FetchOutcome :=
  Rejected (mkError (lit "AbortError") (lit "This operation was aborted")).

(** An operation that answers from a script held in its state. *)
Definition from_script {T} (default : Result T) : M (list (Result T)) T :=
  fun script =>
    match script with
    | [] => (default, [])
    | r :: rest => (r, rest)
    end.

Definition no_sleep {S} (ms : Q) (s : S) : S := s.

Definition fixed_random {S} (s : S) : Q * S := (0%Q, s).

End Scenario.

(* ===================================================================== *)
(** ** Statements *)
(* ===================================================================== *)

(** What redaction of the secret [k] in [s] is to achieve: a result that
    no longer holds [k] and shows its marked eight-unit prefix. *)
Definition redacts (H : Host) (s k : jsstring) : Prop :=
  exists out,
    maskApiKey H s k = Ok out
    /\ includes k out = false
    /\ includes (substring0 8 k ++ lit "***") out = true.

(** The code units the text of a number is made of: the digits and
    those of [-], [+], [.], [e] and [Infinity]. *)
Definition number_text_unit (c : char16) : bool :=
  ((48 <=? c) && (c <=? 57))%N || existsb (N.eqb c) (lit "-+.eInfity").

(** The delimiters of HTML tags and attributes. *)
Definition html_delimiters : jsstring := lit "<>'/" ++ [34%N].

(** A text free of raw HTML delimiters. *)
Definition delimiter_free (s : jsstring) : Prop :=
  forall c, In c html_delimiters -> ~ In c s.

(** Every name sent in a request body of the trace is delimiter free. *)
Definition names_escaped (w : World) : Prop :=
  Forall (fun e => match transmitted_name e with
                   | Some n => delimiter_free n
                   | None => True
                   end) (trace w).

(** The number of backoff waits made so far. *)
Definition is_backoff (e : Event) : bool :=
  match e with
  | EvBackoffSleep _ => true
  | _ => false
  end.

Definition backoff_count (w : World) : nat :=
  List.length (filter is_backoff (trace w)).



(** An invocation that failed with an error the retry test lets
    through. *)
Definition failed_retryably {T} (r : Result T) : Prop :=
  exists e, r = Throw e /\ dont_retry e = false.

(** The four status texts the retry test looks for. *)
Definition mentions_client_error (s : jsstring) : bool :=
  includes (lit "401") s || includes (lit "403") s
  || includes (lit "404") s || includes (lit "400") s.

(** HTML escaping of one code unit. *)
Definition escape_unit (c : char16) : jsstring :=
  if N.eqb c 38%N then lit "&amp;"
  else if N.eqb c 60%N then lit "&lt;"
  else if N.eqb c 62%N then lit "&gt;"
  else if N.eqb c 34%N then lit "&quot;"
  else if N.eqb c 39%N then lit "&#x27;"
  else if N.eqb c 47%N then lit "&#x2F;"
  else [c].

(** The code units [sanitizeHtml] rewrites. *)
Definition html_special (c : char16) : bool :=
  existsb (N.eqb c) [38; 60; 62; 34; 39; 47]%N.

(** The pattern of a matcher matches somewhere in a text. *)
Fixpoint matches_in (m : Logger.matcher) (s : jsstring) : bool :=
  negb (Nat.eqb (m s) 0)
  || match s with
     | [] => false
     | _ :: s' => matches_in m s'
     end.

(** A text shows something of the shape of an API key: [mem_] followed
    by a key character. *)
Definition key_like (s : jsstring) : bool := matches_in Logger.key_match s.

(* ===================================================================== *)
(** * Properties *)
(* ===================================================================== *)

(** ** Occurrences and replacement *)

Section StringFacts.
Implicit Types p r s t u : jsstring.

Lemma starts_with_app p t : starts_with p (p ++ t) = true.
Proof.
  induction p as [|a p IH]; simpl; [reflexivity|].
  now rewrite N.eqb_refl, IH.
Qed.

Lemma starts_with_inv p s :
  starts_with p s = true -> exists t, s = p ++ t.
Proof.
  revert s; induction p as [|a p IH]; intros s Hs.
  - now exists s.
  - destruct s as [|b s]; simpl in Hs; [discriminate|].
    apply andb_true_iff in Hs as [Hab Hs].
    apply N.eqb_eq in Hab; subst b.
    destruct (IH _ Hs) as [t ->].
    now exists t.
Qed.

Lemma starts_with_extend p s t :
  starts_with p s = true -> starts_with p (s ++ t) = true.
Proof.
  intros Hs; destruct (starts_with_inv _ _ Hs) as [u ->].
  rewrite <- app_assoc; apply starts_with_app.
Qed.

(** A prefix match cannot reach past a code unit the needle lacks. *)
Lemma starts_with_before p s c t :
  ~ In c p -> starts_with p (s ++ c :: t) = true -> starts_with p s = true.
Proof.
  revert s; induction p as [|a p IH]; intros s Hc Hs; [reflexivity|].
  destruct s as [|b s]; simpl in Hs |- *;
    apply andb_true_iff in Hs as [Hab Hs]; apply N.eqb_eq in Hab; subst.
  - exfalso; apply Hc; now left.
  - rewrite N.eqb_refl; simpl; apply IH; [|exact Hs].
    intros Hin; apply Hc; now right.
Qed.

Lemma starts_with_includes p s :
  starts_with p s = true -> includes p s = true.
Proof. intros Hs; destruct s; simpl; now rewrite Hs. Qed.

Lemma includes_intro a p b : includes p (a ++ p ++ b) = true.
Proof.
  induction a as [|c a IH].
  - simpl app; apply starts_with_includes, starts_with_app.
  - simpl; rewrite IH; apply orb_true_r.
Qed.

Lemma includes_inv p s :
  includes p s = true -> exists a b, s = a ++ p ++ b.
Proof.
  induction s as [|c s IH]; simpl; intros Hs.
  - rewrite orb_false_r in Hs.
    destruct (starts_with_inv _ _ Hs) as [t Ht]; now exists [], t.
  - apply orb_true_iff in Hs as [Hs|Hs].
    + destruct (starts_with_inv _ _ Hs) as [t Ht]; now exists [], t.
    + destruct (IH Hs) as (a & b & ->); now exists (c :: a), b.
Qed.

Lemma includes_length p s :
  includes p s = true -> (List.length p <= List.length s)%nat.
Proof.
  intros Hs; destruct (includes_inv _ _ Hs) as (a & b & ->).
  rewrite !length_app; lia.
Qed.

Lemma includes_extend p s t :
  includes p s = true -> includes p (s ++ t) = true.
Proof.
  intros Hs; destruct (includes_inv _ _ Hs) as (a & b & ->).
  rewrite <- !app_assoc; apply includes_intro.
Qed.

(** Every code unit of a needle that occurs is in the haystack. *)
Lemma includes_In p s c : includes p s = true -> In c p -> In c s.
Proof.
  intros Hs Hc; destruct (includes_inv _ _ Hs) as (a & b & ->).
  apply in_or_app; right; apply in_or_app; now left.
Qed.

Lemma includes_cons_skip p c s :
  p <> [] -> ~ In c p -> includes p (c :: s) = includes p s.
Proof.
  intros Hp Hc; simpl.
  destruct p as [|a p]; [congruence|]; simpl.
  destruct (N.eqb_spec a c) as [->|_]; [|reflexivity].
  exfalso; apply Hc; now left.
Qed.

(** An occurrence cannot straddle a code unit the needle lacks. *)
Lemma includes_split p s c t :
  ~ In c p -> includes p (s ++ c :: t) = true ->
  includes p s = true \/ includes p t = true.
Proof.
  intros Hc; induction s as [|b s IH]; intros Hs.
  - destruct p as [|a p]; [now left|].
    right; rewrite <- Hs; symmetry.
    apply includes_cons_skip; [discriminate|exact Hc].
  - change ((b :: s) ++ c :: t) with (b :: (s ++ c :: t)) in Hs.
    simpl in Hs; apply orb_true_iff in Hs as [Hs|Hs].
    + left; apply (starts_with_before p (b :: s) c t Hc) in Hs.
      simpl; destruct p; [reflexivity|]; now rewrite Hs.
    + destruct (IH Hs) as [H1|H1]; [left|now right].
      simpl; rewrite H1; apply orb_true_r.
Qed.

(** *** Unfolding [replace_all] *)

Lemma replace_from_skip p r k s :
  replace_from p r k s = replace_from p r 0 (skipn k s).
Proof.
  revert k; induction s as [|c s IH]; intros [|k]; try reflexivity.
  simpl skipn; rewrite <- IH; reflexivity.
Qed.

Lemma replace_all_nil p r : replace_all p r [] = [].
Proof. reflexivity. Qed.

Lemma replace_all_miss p r c s :
  starts_with p (c :: s) = false ->
  replace_all p r (c :: s) = c :: replace_all p r s.
Proof. unfold replace_all; simpl replace_from; now intros ->. Qed.

Lemma replace_from_cons p r c s :
  replace_from p r 0 (c :: s) =
  if starts_with p (c :: s)
  then r ++ replace_from p r (List.length p - 1) s
  else c :: replace_from p r 0 s.
Proof. reflexivity. Qed.

Lemma replace_all_hit p r t :
  p <> [] -> replace_all p r (p ++ t) = r ++ replace_all p r t.
Proof.
  intros Hp; unfold replace_all.
  destruct p as [|a p]; [congruence|].
  change ((a :: p) ++ t) with (a :: (p ++ t)).
  rewrite replace_from_cons.
  change (a :: (p ++ t)) with ((a :: p) ++ t).
  rewrite starts_with_app, replace_from_skip.
  replace (List.length (a :: p) - 1)%nat with (List.length p + 0)%nat
    by (simpl; lia).
  rewrite Nat.add_0_r, skipn_app, skipn_all, Nat.sub_diag; reflexivity.
Qed.

(** Without an occurrence nothing is replaced. *)
Lemma replace_all_absent p r s :
  includes p s = false -> replace_all p r s = s.
Proof.
  induction s as [|c s IH]; intros Hs; [reflexivity|].
  simpl in Hs; apply orb_false_iff in Hs as [H1 H2].
  rewrite replace_all_miss by exact H1.
  now rewrite IH.
Qed.

(** With one, the text splits at the first occurrence: no occurrence
    starts before it. *)
Lemma replace_all_first p r s :
  p <> [] -> includes p s = true ->
  exists u t,
    s = u ++ p ++ t
    /\ includes p (u ++ removelast p) = false
    /\ replace_all p r s = u ++ r ++ replace_all p r t.
Proof.
  intros Hp; induction s as [|c s IH]; intros Hs.
  - apply includes_length in Hs; destruct p; [congruence|simpl in Hs; lia].
  - destruct (starts_with p (c :: s)) eqn:Hhead.
    + destruct (starts_with_inv _ _ Hhead) as [t Ht].
      exists [], t; rewrite Ht; repeat split.
      * simpl app.
        destruct (includes p (removelast p)) eqn:E; [|reflexivity].
        apply includes_length in E.
        assert (Hlen : List.length (removelast p) = (List.length p - 1)%nat).
        { rewrite removelast_firstn_len, length_firstn; lia. }
        destruct p; [congruence|simpl in *; lia].
      * now apply replace_all_hit.
    + assert (Hs' : includes p s = true).
      { simpl in Hs; simpl in Hhead; rewrite Hhead in Hs; exact Hs. }
      destruct (IH Hs') as (u & t & -> & Hfirst & Hrep).
      exists (c :: u), t; repeat split.
      * change ((c :: u) ++ removelast p) with (c :: (u ++ removelast p)).
        simpl includes; rewrite Hfirst, orb_false_r.
        destruct (starts_with p (c :: u ++ removelast p)) eqn:E; [|reflexivity].
        exfalso.
        apply (starts_with_extend _ _ ([last p 0%N] ++ t)) in E.
        change (c :: u ++ removelast p) with ((c :: u) ++ removelast p) in E.
        rewrite <- app_assoc, (app_assoc (removelast p)) in E.
        rewrite <- app_removelast_last in E by exact Hp.
        simpl in E, Hhead; congruence.
      * rewrite replace_all_miss by exact Hhead.
        now rewrite Hrep.
Qed.

End StringFacts.

(** ** The redactor on literal keys *)

(** The marker appended to the kept prefix. *)
Lemma marker_text : lit "***" = [42; 42; 42]%N.
Proof. reflexivity. Qed.

Lemma literal_pattern_nonempty k : literal_pattern k = true -> k <> [].
Proof. destruct k; [discriminate|discriminate]. Qed.

Lemma literal_pattern_chars k c :
  literal_pattern k = true -> In c k -> isSyntaxCharacter c = false.
Proof.
  intros Hk Hc; destruct k as [|a k]; [discriminate|].
  unfold literal_pattern in Hk; rewrite forallb_forall in Hk.
  apply negb_true_iff, Hk, Hc.
Qed.

Lemma literal_pattern_no_star k : literal_pattern k = true -> ~ In 42%N k.
Proof.
  intros Hk Hin; now pose proof (literal_pattern_chars _ _ Hk Hin).
Qed.

Lemma In_substring0 n s c : In c (substring0 n s) -> In c s.
Proof.
  intros Hc; rewrite <- (firstn_skipn n s).
  apply in_or_app; now left.
Qed.

Lemma literal_masked_key k :
  literal_pattern k = true ->
  literal_replacement (substring0 8 k ++ lit "***") = true.
Proof.
  intros Hk; unfold literal_replacement.
  rewrite forallb_app; apply andb_true_iff; split; [|reflexivity].
  apply forallb_forall; intros c Hc.
  apply In_substring0, (literal_pattern_chars _ _ Hk) in Hc.
  apply negb_true_iff; destruct (N.eqb_spec c dollar) as [->|]; [|reflexivity].
  discriminate.
Qed.

(** On a literal key the redactor is the global literal replacement and
    never reaches the engine. *)
Lemma maskApiKey_literal H s k :
  literal_pattern k = true ->
  maskApiKey H s k = Ok (replace_all k (substring0 8 k ++ lit "***") s).
Proof.
  intros Hk; unfold maskApiKey, RegExp_replace.
  rewrite Hk, (literal_masked_key _ Hk).
  destruct k; [discriminate|reflexivity].
Qed.

(** No occurrence of a literal key longer than its kept prefix survives. *)
Lemma masked_excludes_key k s :
  literal_pattern k = true -> (8 < List.length k)%nat ->
  includes k (replace_all k (substring0 8 k ++ lit "***") s) = false.
Proof.
  intros Hk Hlen.
  pose proof (literal_pattern_nonempty _ Hk) as Hne.
  pose proof (literal_pattern_no_star _ Hk) as Hstar.
  remember (List.length s) as n eqn:Hn.
  assert (Hle : (List.length s <= n)%nat) by lia; clear Hn.
  revert s Hle; induction n as [|n IH]; intros s Hle.
  - destruct s; [|simpl in Hle; lia].
    rewrite replace_all_nil.
    destruct (includes k []) eqn:E; [|reflexivity].
    apply includes_length in E; simpl in E; lia.
  - destruct (includes k s) eqn:Hinc;
      [|now rewrite replace_all_absent].
    destruct (replace_all_first k (substring0 8 k ++ lit "***") s Hne Hinc)
      as (u & t & -> & Hfirst & ->).
    match goal with |- ?g = false => destruct g eqn:E; [exfalso|reflexivity] end.
    rewrite marker_text in E.
    rewrite <- (app_assoc (substring0 8 k)), app_assoc in E.
    change ([42; 42; 42]%N ++ ?x) with (42%N :: ([42; 42]%N ++ x)) in E.
    apply includes_split in E as [E|E]; [|..|exact Hstar].
    + apply (includes_extend _ _ (skipn 8 (removelast k))) in E.
      rewrite <- app_assoc in E.
      replace (substring0 8 k ++ skipn 8 (removelast k))
        with (removelast k) in E; [congruence|].
      rewrite <- (firstn_skipn 8 (removelast k)) at 1.
      f_equal; unfold substring0.
      now apply firstn_removelast.
    + simpl app in E.
      rewrite !includes_cons_skip in E by assumption.
      rewrite IH in E; [discriminate|].
      rewrite !length_app in Hle.
      destruct k; [congruence|simpl in Hle; lia].
Qed.

(** Where the key occurred, its kept prefix followed by the marker stands. *)
Lemma masked_includes_marker k s :
  k <> [] -> includes k s = true ->
  includes (substring0 8 k ++ lit "***")
    (replace_all k (substring0 8 k ++ lit "***") s) = true.
Proof.
  intros Hne Hinc.
  destruct (replace_all_first k (substring0 8 k ++ lit "***") s Hne Hinc)
    as (u & t & _ & _ & ->).
  apply includes_intro.
Qed.

(** C2 (as amended).  For every secret [k] of more than eight code units
    none of which is a pattern syntax character, and every text [s] in
    which [k] occurs, [maskApiKey] returns without throwing, its result
    holds no occurrence of [k], and it holds the first eight code units
    of [k] followed by the marker. *)
Theorem maskApiKey_redacts_long_literal_key (H : Host) (s k : jsstring) :
  literal_pattern k = true ->
  (8 < List.length k)%nat ->
  includes k s = true ->
  redacts H s k.
Proof.
  intros Hk Hlen Hs.
  exists (replace_all k (substring0 8 k ++ lit "***") s); repeat split.
  - now apply maskApiKey_literal.
  - now apply masked_excludes_key.
  - apply masked_includes_marker; [|exact Hs].
    now apply literal_pattern_nonempty.
Qed.

(** C2 at a key and a message of the test suite. *)
Lemma maskApiKey_redacts_test_key :
  redacts Scenario.offline
    (lit "Key: mem_test_1234567890abcdef, failed to authenticate mem_test_1234567890abcdef")
    (lit "mem_test_1234567890abcdef").
Proof.
  apply maskApiKey_redacts_long_literal_key.
  - reflexivity.
  - simpl; lia.
  - reflexivity.
Defined.

(** C2 (as stated) fails on a secret of at most eight code units: the
    whole secret is its own kept prefix, so it is still there after the
    replacement. *)
Lemma maskApiKey_keeps_short_key :
  maskApiKey Scenario.offline
    (lit "Invalid key mem_dev") (lit "mem_dev")
  = Ok (lit "Invalid key mem_dev***")
  /\ includes (lit "mem_dev") (lit "Invalid key mem_dev***") = true
  /\ ~ redacts Scenario.offline
         (lit "Invalid key mem_dev") (lit "mem_dev").
Proof.
  split; [reflexivity|split; [reflexivity|]].
  intros (out & Hout & Hno & _).
  vm_compute in Hout; injection Hout as <-.
  vm_compute in Hno; discriminate.
Qed.

(** ** The retry loop *)

Section RetryFacts.
Context {S T : Type}.
Variable sleep : Q -> S -> S.
Variable random : S -> Q * S.
Variable fn : M S T.
Variable retries : Z.

(** Whatever the loop throws was thrown by the operation (or was the
    last error already held). *)
Lemma retry_loop_throws (P : Error -> Prop) :
  (forall s e s', fn s = (Throw e, s') -> P e) ->
  forall n a last s e s',
    (forall l, last = Some l -> P l) ->
    (last = None -> n <> O) ->
    retry_loop sleep random fn retries n a last s = (Throw e, s') ->
    P e.
Proof.
  intros Hfn; induction n as [|n IH]; intros a last s e s' Hlast Hn Hrun.
  - destruct last as [l|]; [|now elim Hn].
    injection Hrun as <- _; now apply Hlast.
  - simpl in Hrun.
    destruct (fn s) as [[v|err] s1] eqn:Hcall; [discriminate|].
    destruct (dont_retry err); [|destruct (a =? retries)].
    + injection Hrun as <- _; eapply Hfn, Hcall.
    + injection Hrun as <- _; eapply Hfn, Hcall.
    + eapply IH; [| |exact Hrun]; [|discriminate].
      intros l [= <-]; eapply Hfn, Hcall.
Qed.

Lemma withRetry_throws (P : Error -> Prop) :
  0 <= retries ->
  (forall s e s', fn s = (Throw e, s') -> P e) ->
  forall s e s', withRetry sleep random fn retries s = (Throw e, s') -> P e.
Proof.
  intros Hr Hfn s e s'; unfold withRetry.
  apply retry_loop_throws; [exact Hfn|discriminate|].
  intros _; lia.
Qed.

(** A property of the state that the operation and the timers keep is
    kept by the loop. *)
Lemma retry_loop_preserves (I : S -> Prop) :
  (forall s r s', I s -> fn s = (r, s') -> I s') ->
  (forall ms s, I s -> I (sleep ms s)) ->
  (forall s, I s -> I (snd (random s))) ->
  forall n a last s r s',
    I s -> retry_loop sleep random fn retries n a last s = (r, s') -> I s'.
Proof.
  intros Hfn Hsleep Hrandom; induction n as [|n IH];
    intros a last s r s' Hs Hrun.
  - injection Hrun as _ <-; exact Hs.
  - simpl in Hrun.
    destruct (fn s) as [[v|err] s1] eqn:Hcall.
    + injection Hrun as _ <-; eapply Hfn; eauto.
    + assert (Hs1 : I s1) by (eapply Hfn; eauto).
      destruct (dont_retry err); [|destruct (a =? retries)];
        try (injection Hrun as _ <-; exact Hs1).
      eapply IH; [|exact Hrun].
      unfold backoff.
      specialize (Hrandom _ Hs1); destruct (random s1) as [q s2].
      now apply Hsleep.
Qed.

(** The instrumented timers act on the state alone. *)
Lemma backoff_counted a s c :
  backoff (counted_sleep sleep) (counted_random random) a (s, c)
  = (backoff sleep random a s, c).
Proof.
  unfold backoff, counted_random, counted_sleep.
  now destruct (random s) as [q s1].
Qed.

(** Each iteration invokes the operation once. *)
Lemma retry_loop_invocations n :
  forall a last s c,
    (snd (snd (retry_loop (counted_sleep sleep) (counted_random random)
                 (counted fn) retries n a last (s, c))) <= c + n)%nat.
Proof.
  induction n as [|n IH]; intros a last s c; simpl.
  - lia.
  - destruct (fn s) as [[v|err] s1]; simpl; [lia|].
    destruct (dont_retry err); [|destruct (a =? retries)]; simpl; try lia.
    rewrite backoff_counted.
    specialize (IH (a + 1) (Some err) (backoff sleep random a s1)
                  (Datatypes.S c)); lia.
Qed.

(** Instrumenting the operation does not change what the loop does. *)
Lemma retry_loop_counted n :
  forall a last s c,
    let run := retry_loop sleep random fn retries n a last s in
    let crun := retry_loop (counted_sleep sleep) (counted_random random)
                  (counted fn) retries n a last (s, c) in
    fst crun = fst run /\ fst (snd crun) = snd run.
Proof.
  induction n as [|n IH]; intros a last s c; simpl.
  - now split.
  - destruct (fn s) as [[v|err] s1]; simpl; [now split|].
    destruct (dont_retry err); [|destruct (a =? retries)]; simpl;
      try now split.
    rewrite backoff_counted; apply IH.
Qed.

(** A counter that each invocation advances by one and the timers leave
    alone advances by at least one and at most the number of iterations. *)
Lemma retry_loop_measure (mu : S -> nat) :
  (forall s, mu (snd (fn s)) = Datatypes.S (mu s)) ->
  (forall ms s, mu (sleep ms s) = mu s) ->
  (forall s, mu (snd (random s)) = mu s) ->
  forall n a last s,
    let s' := snd (retry_loop sleep random fn retries n a last s) in
    (mu s <= mu s' <= mu s + n)%nat /\ (n <> O -> mu s < mu s')%nat.
Proof.
  intros Hfn Hsleep Hrandom.
  assert (Hb : forall a s, mu (backoff sleep random a s) = mu s).
  { intros a s; unfold backoff; specialize (Hrandom s).
    destruct (random s) as [q s2]; simpl in Hrandom.
    now rewrite Hsleep. }
  induction n as [|n IH]; intros a last s; simpl.
  - split; [lia|congruence].
  - pose proof (Hfn s) as Hstep.
    destruct (fn s) as [[v|err] s1]; simpl in Hstep |- *; [lia|].
    destruct (dont_retry err); [|destruct (a =? retries)]; simpl; try lia.
    destruct (IH (a + 1) (Some err) (backoff sleep random a s1)) as [Hle _].
    rewrite Hb in Hle; lia.
Qed.

(** When every invocation fails with an error the test lets through,
    the loop invokes the operation once per iteration and throws. *)
Lemma retry_loop_exhausts :
  (forall s, exists e s', fn s = (Throw e, s') /\ dont_retry e = false) ->
  forall n a last s c,
    n <> O -> Z.of_nat n + a = retries + 1 ->
    exists e s',
      retry_loop (counted_sleep sleep) (counted_random random) (counted fn)
        retries n a last (s, c)
      = (Throw e, (s', (c + n)%nat))
      /\ dont_retry e = false.
Proof.
  intros Hfn; induction n as [|n IH]; intros a last s c Hn Ha; [congruence|].
  simpl; destruct (Hfn s) as (e & s1 & -> & He); rewrite He.
  destruct (Z.eqb_spec a retries) as [Heq|Hne].
  - assert (n = O) by lia; subst n.
    exists e, s1; split; [|exact He].
    do 2 f_equal; lia.
  - rewrite backoff_counted.
    destruct (IH (a + 1) (Some e) (backoff sleep random a s1) (Datatypes.S c))
      as (e' & s' & -> & He'); [lia|lia|].
    exists e', s'; split; [|exact He'].
    do 2 f_equal; lia.
Qed.

End RetryFacts.

(** C5 (the code departs from it).  [withRetry] with the default budget
    never invokes the wrapped operation more than four times (counted
    by instrumenting the operation, which leaves the outcome of the
    call as it is).  But an operation that fails retryably, with a
    status other than 400, 401, 403 and 404 or with a timeout, on the
    first two attempts and succeeds on the third is not always invoked
    three times: whether a failure is retried is read off the digits in
    its message.  When the messages of two 500 failures hold none of
    the four numbers, three invocations are made and the third result
    is returned; when the first 500 failure mentions 404 in its text,
    or the failures are timeouts of a configured 4000 ms, the first
    failure is surfaced after one invocation and the success is never
    reached. *)
Theorem withRetry_gives_up_on_retryable_failures :
  (forall (S T : Type) (sleep : Q -> S -> S) (random : S -> Q * S)
          (fn : M S T) (s : S),
      let run :=
        withRetry (counted_sleep sleep) (counted_random random) (counted fn)
          MAX_RETRIES (s, O) in
      (snd (snd run) <= 4)%nat
      /\ fst run = fst (withRetry sleep random fn MAX_RETRIES s)
      /\ fst (snd run) = snd (withRetry sleep random fn MAX_RETRIES s))
  /\ (let run first second :=
        withRetry (counted_sleep Scenario.no_sleep)
          (counted_random Scenario.fixed_random)
          (counted (Scenario.from_script (Ok 0%nat))) MAX_RETRIES
          ([ Throw (new_Error first); Throw (new_Error second); Ok 123%nat ],
           O) in
      let plain := lit "API request failed: 500 Internal Server Error" in
      let mentioning :=
        lit "API request failed: 500 Internal Server Error - upstream answered 404" in
      let timed_out := lit "Request timeout after 4000ms" in
      run plain plain = (Ok 123%nat, ([], 3%nat))
      /\ run mentioning plain
         = (Throw (new_Error mentioning),
            ([ Throw (new_Error plain); Ok 123%nat ], 1%nat))
      /\ run timed_out timed_out
         = (Throw (new_Error timed_out),
            ([ Throw (new_Error timed_out); Ok 123%nat ], 1%nat)))
  /\ (let run timeout first second :=
        storeMemory
          (Scenario.scripted
             [ first; second;
               Scenario.respond 200 "OK" None Scenario.stored_memory ]
             Scenario.aborted)
          (mkConfig (lit "mem_test_1234567890abcdef")
             (lit "https://api.memoryrelay.net") (lit "test-agent") timeout)
          (lit "test content") None initial_world in
      let answer500 data :=
        Scenario.respond 500 "Internal Server Error" None data in
      let plain := answer500 (JObject []) in
      let mentioning :=
        answer500
          (JObject [ (lit "message", JString (lit "upstream answered 404")) ]) in
      (fst (run 5000 plain plain) = Ok Scenario.stored_memory
       /\ fetch_count (snd (run 5000 plain plain)) = 3%nat)
      /\ (fst (run 5000 mentioning plain)
          = Throw (new_Error
                     (lit "API request failed: 500 Internal Server Error - upstream answered 404"))
          /\ fetch_count (snd (run 5000 mentioning plain)) = 1%nat)
      /\ (fst (run 4000 Scenario.aborted Scenario.aborted)
          = Throw (new_Error (lit "Request timeout after 4000ms"))
          /\ fetch_count (snd (run 4000 Scenario.aborted Scenario.aborted))
             = 1%nat)
      /\ (fst (run 5000 Scenario.aborted Scenario.aborted)
          = Ok Scenario.stored_memory
          /\ fetch_count (snd (run 5000 Scenario.aborted Scenario.aborted))
             = 3%nat)).
Proof.
  split; [|split; [vm_compute; repeat split|vm_compute; repeat split]].
  intros S T sleep random fn s run; split.
  - apply (retry_loop_invocations sleep random fn MAX_RETRIES 4 0 None s O).
  - apply (retry_loop_counted sleep random fn MAX_RETRIES 4 0 None s O).
Qed.

(** The retry scenario of the test suite: two answers of status 500,
    then success, make three calls of [fetch], with waits of 1000 ms
    and 2000 ms, each lengthened by its jitter, between them. *)
Example storeMemory_500_500_200 :
  let run :=
    storeMemory
      (Scenario.scripted
         [ Scenario.respond 500 "Internal Server Error" None (JObject []);
           Scenario.respond 500 "Internal Server Error" None (JObject []);
           Scenario.respond 200 "OK" None Scenario.stored_memory ]
         Scenario.aborted)
      Scenario.test_config (lit "test content") None initial_world in
  fst run = Ok Scenario.stored_memory
  /\ fetch_count (snd run) = 3%nat
  /\ flat_map (fun e => match e with
                        | EvBackoffSleep ms => [ Qred ms ]
                        | _ => []
                        end) (rev (trace (snd run)))
     = [ (1150 # 1)%Q; (2300 # 1)%Q ].
Proof. vm_compute; repeat split. Qed.

(** ** Text of numbers *)

Lemma lit_String a s : lit (String a s) = N_of_ascii a :: lit s.
Proof. reflexivity. Qed.

Lemma string_of_uint_digits d c :
  In c (lit (NilEmpty.string_of_uint d)) -> (48 <= c <= 57)%N.
Proof.
  induction d as [|d IH|d IH|d IH|d IH|d IH|d IH|d IH|d IH|d IH|d IH];
    simpl NilEmpty.string_of_uint; [intros []|..];
    rewrite lit_String;
    (intros [<-|Hc]; [vm_compute; split; discriminate|now apply IH]).
Qed.

Lemma decimal_digits_units m c :
  In c (decimal_digits m) -> (48 <= c <= 57)%N.
Proof.
  unfold decimal_digits, NilZero.string_of_uint.
  destruct (N.to_uint (Z.to_N m)); try apply string_of_uint_digits.
  intros [<-|[]]; vm_compute; split; discriminate.
Qed.

Lemma In_drop_zeros s c : In c (drop_zeros s) -> In c s.
Proof.
  induction s as [|x s IH]; [intros []|].
  cbn [drop_zeros]; destruct (N.eqb x 48); [|now intros].
  intros Hin; right; now apply IH.
Qed.

(** The text of a number is made of digits and of the code units of
    [-], [+], [.], [e] and [Infinity]. *)
Lemma Number_toString_units z c :
  In c (Number_toString z) -> number_text_unit c = true.
Proof.
  assert (Hdigit : forall m, In c (decimal_digits m) ->
                             number_text_unit c = true).
  { intros m Hin; apply decimal_digits_units in Hin as [Hlo Hhi].
    unfold number_text_unit.
    apply N.leb_le in Hlo, Hhi; now rewrite Hlo, Hhi. }
  assert (Hsign : In c (if z <? 0 then lit "-" else []) ->
                  number_text_unit c = true).
  { destruct (z <? 0); [intros [<-|[]]; reflexivity|intros []]. }
  unfold Number_toString.
  set (v := round_to_double (Z.abs z)).
  set (digits := decimal_digits (shortest_decimal v _)).
  destruct (overflows v).
  { intros Hin; apply in_app_or in Hin as [Hin|Hin]; [now apply Hsign|].
    vm_compute in Hin.
    repeat (destruct Hin as [<-|Hin]; [reflexivity|]); destruct Hin. }
  destruct (_ <=? _)%nat.
  { intros Hin; apply in_app_or in Hin as [Hin|Hin];
      [now apply Hsign|now apply (Hdigit _ Hin)]. }
  assert (Hs : In c (rev (drop_zeros (rev digits))) ->
               number_text_unit c = true).
  { intros Hin; apply in_rev, In_drop_zeros, in_rev in Hin.
    now apply (Hdigit _ Hin). }
  intros Hin; apply in_app_or in Hin as [Hin|Hin]; [now apply Hsign|].
  apply in_app_or in Hin as [Hin|Hin].
  - destruct (rev (drop_zeros (rev digits))) as [|d [|d' rest]];
      try now apply Hs.
    destruct Hin as [<-|[<-|Hin]];
      [apply Hs; now left|reflexivity|now apply Hs; right].
  - destruct Hin as [<-|[<-|Hin]]; [reflexivity|reflexivity|].
    now apply (Hdigit _ Hin).
Qed.

Lemma Number_toString_no_underscore z : ~ In 95%N (Number_toString z).
Proof. intros Hin; now apply Number_toString_units in Hin. Qed.

(** The timeout message has no underscore. *)
Lemma timeout_message_no_underscore z :
  ~ In 95%N (lit "Request timeout after " ++ Number_toString z ++ lit "ms").
Proof.
  intros Hin; apply in_app_or in Hin as [Hin|Hin].
  - vm_compute in Hin; repeat (destruct Hin as [Hin|Hin]; [discriminate|]).
    exact Hin.
  - apply in_app_or in Hin as [Hin|Hin].
    + now apply Number_toString_no_underscore in Hin.
    + vm_compute in Hin; repeat (destruct Hin as [Hin|Hin]; [discriminate|]).
      exact Hin.
Qed.

(** ** One attempt of a request *)

Section AttemptFacts.
Variable H : Host.
Variable config : ClientConfig.

(** The [catch] block always rethrows and touches nothing. *)
Lemma on_error_rethrows error w :
  exists e, on_error H config error w = (Throw e, w).
Proof.
  unfold on_error, throw.
  destruct (jsstring_eqb _ _); [eauto|].
  destruct (maskApiKey _ _ _); eauto.
Qed.

(** A failure status ends in a throw, after the rate-limit wait at most. *)
Lemma on_failure_status_throws response w :
  exists e, 
    on_failure_status H config response w = (Throw e, w)
    \/ exists waitMs,
         on_failure_status H config response w
         = (Throw e, record_event (EvRateLimitSleep waitMs) w).
Proof.
  unfold on_failure_status.
  destruct (status response =? 429); [eauto|].
  unfold bind, lift, throw.
  destruct (error_detail _); [|eauto].
  destruct (maskApiKey _ _ _); eauto.
Qed.

(** The events of one attempt: exactly one call of [fetch], then
    possibly the rate-limit wait. *)
Lemma attempt_events method path body w :
  let w1 :=
    record_event
      (EvFetch (apiUrl config ++ path) (request_init config method body)) w in
  snd (attempt H config method path body w) = w1
  \/ exists waitMs,
       snd (attempt H config method path body w)
       = record_event (EvRateLimitSleep waitMs) w1.
Proof.
  intros w1; unfold attempt, try_catch; fold w1.
  destruct (fetch H _ _ _) as [e|response].
  - destruct (on_error_rethrows e w1) as [e' ->]; now left.
  - destruct (negb (ok response)).
    + destruct (on_failure_status_throws response w1) as [e [-> | [n ->]]].
      * destruct (on_error_rethrows e w1) as [e' ->]; now left.
      * destruct (on_error_rethrows e (record_event (EvRateLimitSleep n) w1))
          as [e' ->]; right; now exists n.
    + destruct (json_body response) as [v|e]; [now left|].
      destruct (on_error_rethrows e w1) as [e' ->]; now left.
Qed.

(** Whatever an attempt throws went through the [catch] block. *)
Lemma attempt_throws_via_on_error method path body w e w' :
  attempt H config method path body w = (Throw e, w') ->
  exists error w0, on_error H config error w0 = (Throw e, w').
Proof.
  unfold attempt, try_catch.
  match goal with |- context [match ?c with _ => _ end] =>
    destruct c as [[v|error] w0] end; [discriminate|].
  intros Hrun; now exists error, w0.
Qed.

(** A property of events that holds of the request's own call of
    [fetch] and of every wait holds of all it adds to the trace. *)
Lemma request_trace_invariant (P : Event -> Prop) method path body :
  (forall ms, P (EvBackoffSleep ms)) ->
  (forall waitMs, P (EvRateLimitSleep waitMs)) ->
  P (EvFetch (apiUrl config ++ path) (request_init config method body)) ->
  forall w r w',
    Forall P (trace w) ->
    request H config method path body w = (r, w') ->
    Forall P (trace w').
Proof.
  intros Hb Hr Hf w r w'; unfold request, withRetry.
  apply (retry_loop_preserves sleep (random H)
           (attempt H config method path body) MAX_RETRIES
           (fun w => Forall P (trace w))).
  - intros s r0 s' Hs Hrun.
    pose proof (attempt_events method path body s) as Hev.
    rewrite Hrun in Hev; simpl in Hev.
    destruct Hev as [-> | [n ->]]; simpl; auto.
  - intros ms s Hs; simpl; auto.
  - intros s Hs; exact Hs.
Qed.

End AttemptFacts.

(** ** The API key in raised messages *)

Lemma mem_prefix_underscore k :
  starts_with (lit "mem_") k = true -> In 95%N k.
Proof.
  intros Hk; destruct (starts_with_inv _ _ Hk) as [t ->].
  apply in_or_app; left; vm_compute; tauto.
Qed.

Lemma on_error_hides_key H config error w e w' :
  literal_pattern (apiKey config) = true ->
  (8 < List.length (apiKey config))%nat ->
  starts_with (lit "mem_") (apiKey config) = true ->
  on_error H config error w = (Throw e, w') ->
  includes (apiKey config) (message e) = false.
Proof.
  intros Hlit Hlen Hmem; unfold on_error, throw.
  destruct (jsstring_eqb _ _).
  - intros [= <- _]; simpl.
    match goal with |- ?g = false => destruct g eqn:E; [exfalso|reflexivity] end.
    apply (timeout_message_no_underscore (timeout config)).
    eapply includes_In; [exact E|now apply mem_prefix_underscore].
  - rewrite maskApiKey_literal by exact Hlit.
    intros [= <- _]; simpl.
    now apply masked_excludes_key.
Qed.

(** C3 (the code departs from it).  [maskApiKey] hands the key to
    [new RegExp] as it is, so a key with a pattern syntax character is
    not searched for as a text.  For a key that the configuration
    schema admits and that has no such character, no failing request
    shows the key, whatever the cause of the failure.  But in the key
    [mem_test_1234567890abc+def], which the schema admits as well, [c+]
    stands for a run of the letter: the pattern does not match the key,
    and in the masking scenario of the test suite, a 401 whose body
    echoes the key, the message raised out of the client holds the key
    in full. *)
Theorem request_error_shows_key_with_plus :
  (forall (H : Host) (config : ClientConfig) (method path : jsstring)
          (body : option json) (w w' : World) (e : Error),
      apiKey_schema (apiKey config) = true ->
      literal_pattern (apiKey config) = true ->
      request H config method path body w = (Throw e, w') ->
      includes (apiKey config) (message e) = false)
  /\ (let key := lit "mem_test_1234567890abc+def" in
      let config :=
        mkConfig key (lit "https://api.memoryrelay.net") (lit "test-agent")
          5000 in
      let H :=
        Scenario.scripted
          [ Scenario.respond 401 "Unauthorized" None
              (JObject [ (lit "message",
                          JString (lit "Key: " ++ key ++ lit " failed")) ]) ]
          Scenario.aborted in
      let run := storeMemory H config (lit "test content") None initial_world in
      let raised :=
        lit "API request failed: 401 Unauthorized - Key: mem_test_1234567890abc+def failed" in
      apiKey_schema key = true
      /\ fst run = Throw (new_Error raised)
      /\ fetch_count (snd run) = 1%nat
      /\ includes key raised = true).
Proof.
  split; [|vm_compute; repeat split].
  intros H config method path body w w' e Hschema Hlit; unfold request.
  apply andb_true_iff in Hschema as [Hmem Hlen].
  apply Z.leb_le in Hlen; unfold strlen in Hlen.
  apply (withRetry_throws sleep (random H) (attempt H config method path body)
           MAX_RETRIES
           (fun e => includes (apiKey config) (message e) = false));
    [discriminate|].
  intros s e0 s' Hrun.
  destruct (attempt_throws_via_on_error _ _ _ _ _ _ _ _ Hrun)
    as (error & w0 & Herr).
  eapply on_error_hides_key; eauto; lia.
Qed.

(** ** Health check *)

(** What [healthCheck] returns, by the outcome of its request. *)
Lemma healthCheck_outcome H config w :
  healthCheck H config w
  = match request H config (lit "GET") (lit "/v1/health") None w with
    | (Ok _, w1) =>
        (Ok (Health.mk (lit "healthy") (lit "API connection successful")), w1)
    | (Throw e, w1) =>
        (Ok (Health.mk (lit "unhealthy")
               (lit "API connection failed: " ++ message e)), w1)
    end.
Proof.
  unfold healthCheck, try_catch, bind, ret.
  now destruct (request _ _ _ _ _ _) as [[v|e] w1].
Qed.

(** C8.  [healthCheck] never raises: whatever the underlying request
    does, it returns a value; that value has status [unhealthy] and a
    message containing [failed] when the request, retries included,
    ended in a failure, and status [healthy] when it succeeded. *)
Theorem healthCheck_never_raises (H : Host) (config : ClientConfig) (w : World) :
  exists h,
    healthCheck H config w
    = (Ok h, snd (request H config (lit "GET") (lit "/v1/health") None w))
    /\ match fst (request H config (lit "GET") (lit "/v1/health") None w) with
       | Ok _ => Health.status h = lit "healthy"
       | Throw e =>
           Health.status h = lit "unhealthy"
           /\ includes (lit "failed") (Health.message h) = true
       end.
Proof.
  rewrite healthCheck_outcome.
  destruct (request H config (lit "GET") (lit "/v1/health") None w)
    as [[v|e] w1]; cbn [fst snd].
  - eexists; split; reflexivity.
  - eexists; split; [reflexivity|split; [reflexivity|]].
    cbn [Health.message].
    apply includes_extend; reflexivity.
Qed.

(** ** The content-size guard *)

Lemma validateContentSize_accepts content :
  strlen content <= 51200 -> validateContentSize content = Ok tt.
Proof.
  intros Hlen; unfold validateContentSize, MAX_CONTENT_SIZE.
  rewrite Z.gtb_ltb; destruct (Z.ltb_spec (50 * 1024) (strlen content));
    [lia|reflexivity].
Qed.

Lemma validateContentSize_rejects content :
  51200 + 1 <= strlen content ->
  validateContentSize content
  = Throw (new_Error (lit "Content exceeds maximum size of 51200 bytes")).
Proof.
  intros Hlen; unfold validateContentSize, MAX_CONTENT_SIZE.
  rewrite Z.gtb_ltb; destruct (Z.ltb_spec (50 * 1024) (strlen content));
    [reflexivity|lia].
Qed.

Lemma strlen_repeat c n : 0 <= n -> strlen (repeat c (Z.to_nat n)) = n.
Proof. intros Hn; unfold strlen; rewrite repeat_length; lia. Qed.

(** C7.  A content (for [createEntity], a name; for [searchMemories], a
    query) of exactly 51200 code units passes the guard, and the
    operation goes on to its request; one of 51201 code units or more
    makes every guarded operation throw the size error, whose message
    states the maximum, and leaves the world as it was: no request is
    made. *)
Theorem content_size_guard (H : Host) (config : ClientConfig)
    (content : jsstring) :
  (strlen content = 51200 ->
   validateContentSize content = Ok tt
   /\ forall id type metadata limit threshold w,
        storeMemory H config content metadata w
        = request H config (lit "POST") (lit "/v1/memories/memories")
            (Some (object
                     [ (lit "content", Some (JString content));
                       (lit "metadata", option_map record_json metadata);
                       (lit "agent_id", Some (JString (agentId config))) ])) w
        /\ updateMemory H config id content metadata w
           = request H config (lit "PATCH") (lit "/v1/memories/memories/" ++ id)
               (Some (object
                        [ (lit "content", Some (JString content));
                          (lit "metadata", option_map record_json metadata) ])) w
        /\ createEntity H config content type metadata w
           = request H config (lit "POST") (lit "/v1/entities")
               (Some (object
                        [ (lit "name", Some (JString content));
                          (lit "type", Some (JString type));
                          (lit "metadata", option_map record_json metadata) ])) w
        /\ searchMemories H config content (Some limit) (Some threshold) w
           = (response <-
                request H config (lit "POST")
                  (lit "/v1/memories/memories/search")
                  (Some (object
                           [ (lit "query", Some (JString content));
                             (lit "limit", Some (JNumber limit));
                             (lit "threshold", Some (JNumber threshold));
                             (lit "agent_id",
                              Some (JString (agentId config))) ])) ;;
              lift (get_property response (lit "data"))) w)
  /\ (51200 + 1 <= strlen content ->
      exists e,
        validateContentSize content = Throw e
        /\ message e = lit "Content exceeds maximum size of 51200 bytes"
        /\ includes (Number_toString MAX_CONTENT_SIZE) (message e) = true
        /\ forall id type metadata limit threshold w,
             storeMemory H config content metadata w = (Throw e, w)
             /\ updateMemory H config id content metadata w = (Throw e, w)
             /\ createEntity H config content type metadata w = (Throw e, w)
             /\ searchMemories H config content limit threshold w
                = (Throw e, w)).
Proof.
  split; intros Hlen.
  - assert (Hok : validateContentSize content = Ok tt)
      by (apply validateContentSize_accepts; lia).
    split; [exact Hok|].
    intros id type metadata limit threshold w.
    unfold storeMemory, updateMemory, createEntity, searchMemories.
    rewrite Hok; repeat split.
  - pose proof (validateContentSize_rejects content Hlen) as Hno.
    eexists; split; [exact Hno|].
    split; [reflexivity|split; [reflexivity|]].
    intros id type metadata limit threshold w.
    unfold storeMemory, updateMemory, createEntity, searchMemories, bind, lift.
    rewrite Hno; repeat split.
Qed.

(** C7 at 51200 and at 51201 letters. *)
Lemma content_size_guard_at_the_limit :
  (validateContentSize (repeat 97%N (Z.to_nat 51200)) = Ok tt)
  /\ (exists e,
        storeMemory Scenario.offline
          Scenario.test_config (repeat 97%N (Z.to_nat 51201)) None
          initial_world
        = (Throw e, initial_world)
        /\ message e = lit "Content exceeds maximum size of 51200 bytes").
Proof.
  pose proof (content_size_guard
                Scenario.offline Scenario.test_config (repeat 97%N (Z.to_nat 51200))) as [Hat _].
  pose proof (content_size_guard
                Scenario.offline Scenario.test_config (repeat 97%N (Z.to_nat 51201))) as [_ Hover].
  split.
  - apply Hat, strlen_repeat; lia.
  - destruct Hover as (e & _ & Hmsg & _ & Hops).
    + rewrite strlen_repeat; lia.
    + destruct (Hops [] [] None None None initial_world) as [Hstore _].
      exists e; split; [exact Hstore|exact Hmsg].
Defined.

(** The UTF-8 encoding of a text has at least as many bytes as the text
    has code units. *)
Lemma utf8_byte_length_units n :
  forall s, (List.length s <= n)%nat -> strlen s <= utf8_byte_length s.
Proof.
  unfold strlen; induction n as [|n IH]; intros [|c s] Hn;
    cbn [List.length] in Hn |- *; try (simpl; lia).
  assert (Hs : Z.of_nat (List.length s) <= utf8_byte_length s)
    by (apply IH; lia).
  cbn [utf8_byte_length].
  destruct (c <? 128)%N; [lia|].
  destruct (c <? 2048)%N; [lia|].
  destruct ((55296 <=? c) && (c <=? 56319))%N; [|lia].
  destruct s as [|d s]; [simpl; lia|].
  destruct ((56320 <=? d) && (d <=? 57343))%N; [|lia].
  cbn [List.length] in Hn |- *.
  assert (Z.of_nat (List.length s) <= utf8_byte_length s) by (apply IH; lia).
  lia.
Qed.

Lemma utf8_byte_length_repeat c k n :
  In (c, k) [ (97%N, 1); (20013%N, 3) ] ->
  utf8_byte_length (repeat c n) = k * Z.of_nat n.
Proof.
  intros Hc; induction n as [|n IH]; [simpl; lia|].
  change (repeat c (S n)) with (c :: repeat c n).
  destruct Hc as [[= <- <-]|[[= <- <-]|[]]];
    cbn [utf8_byte_length]; cbn - [utf8_byte_length Z.of_nat Z.mul Z.add];
    rewrite IH; lia.
Qed.

(** C9.  The guard counts UTF-16 code units and nothing else: a string
    passes if and only if it has at most 51200 code units, and one that
    does not pass raises [Content exceeds maximum size of 51200 bytes],
    the limit stated in bytes.  The size of the UTF-8 encoding, which is
    never less than the number of code units, plays no part: 51200
    copies of U+4E2D, 153600 bytes of UTF-8, pass, while 51201 letters,
    51201 bytes, do not. *)
Theorem validateContentSize_counts_code_units :
  (forall content,
      validateContentSize content = Ok tt <-> strlen content <= 51200)
  /\ (forall content,
        51200 < strlen content ->
        validateContentSize content
        = Throw (new_Error (lit "Content exceeds maximum size of 51200 bytes")))
  /\ (forall content e,
        validateContentSize content = Throw e ->
        includes (lit "bytes") (message e) = true)
  /\ (forall content, strlen content <= utf8_byte_length content)
  /\ (let wide := repeat 20013%N (Z.to_nat 51200) in
      let narrow := repeat 97%N (Z.to_nat 51201) in
      (strlen wide = 51200
       /\ utf8_byte_length wide = 153600
       /\ validateContentSize wide = Ok tt)
      /\ (strlen narrow = 51201
          /\ utf8_byte_length narrow = 51201
          /\ validateContentSize narrow
             = Throw (new_Error
                        (lit "Content exceeds maximum size of 51200 bytes")))).
Proof.
  assert (Hwide : strlen (repeat 20013%N (Z.to_nat 51200)) = 51200)
    by (apply strlen_repeat; lia).
  assert (Hnarrow : strlen (repeat 97%N (Z.to_nat 51201)) = 51201)
    by (apply strlen_repeat; lia).
  split; [|split; [|split; [|split; [|split; split; [|split| |split]]]]].
  - intros content; split; [|apply validateContentSize_accepts].
    intros Hok.
    destruct (Z.le_gt_cases (strlen content) 51200) as [Hle|Hgt]; [exact Hle|].
    rewrite validateContentSize_rejects in Hok by lia; discriminate.
  - intros content Hlen; apply validateContentSize_rejects; lia.
  - intros content e; unfold validateContentSize.
    destruct (strlen content >? MAX_CONTENT_SIZE); [|discriminate].
    intros [= <-]; reflexivity.
  - intros content; now apply (utf8_byte_length_units (List.length content)).
  - exact Hwide.
  - rewrite (utf8_byte_length_repeat _ 3) by (simpl; tauto); lia.
  - apply validateContentSize_accepts; lia.
  - exact Hnarrow.
  - rewrite (utf8_byte_length_repeat _ 1) by (simpl; tauto); lia.
  - apply validateContentSize_rejects; lia.
Qed.

(** C9 at 51200 copies of U+4E2D. *)
Lemma validateContentSize_accepts_wide_text :
  validateContentSize (repeat 20013%N (Z.to_nat 51200)) = Ok tt.
Proof.
  apply (proj1 validateContentSize_counts_code_units).
  rewrite strlen_repeat; lia.
Defined.

(** ** HTML escaping *)

(** A one-unit pattern is replaced unit by unit. *)
Lemma replace_all_single c r s :
  replace_all [c] r s = flat_map (fun x => if N.eqb c x then r else [x]) s.
Proof.
  induction s as [|x s IH]; [reflexivity|].
  cbn [flat_map]; destruct (N.eqb_spec c x) as [<-|Hne].
  - change (c :: s) with ([c] ++ s).
    rewrite replace_all_hit by discriminate.
    now rewrite IH.
  - rewrite replace_all_miss.
    + now rewrite IH.
    + simpl; destruct (N.eqb_spec c x); [contradiction|reflexivity].
Qed.

Lemma In_replace_all_single c r s x :
  In x (replace_all [c] r s) -> In x r \/ (In x s /\ x <> c).
Proof.
  rewrite replace_all_single, in_flat_map.
  intros (y & Hy & Hx).
  destruct (N.eqb_spec c y) as [<-|Hne]; [now left|].
  destruct Hx as [<-|[]]; right; split; [exact Hy|congruence].
Qed.

Lemma sanitizeHtml_delimiter_free str : delimiter_free (sanitizeHtml str).
Proof.
  intros c Hc Hin; unfold sanitizeHtml in Hin.
  vm_compute in Hc.
  repeat (apply In_replace_all_single in Hin as [Hin|[Hin ?]];
          [vm_compute in Hin; intuition congruence|]).
  repeat match goal with Hne : c <> _ |- _ => vm_compute in Hne; revert Hne end.
  intuition congruence.
Qed.

Lemma names_escaped_initial : names_escaped initial_world.
Proof. constructor. Qed.

(** ** Endpoints *)

Lemma fetch_calls_Forall (P : jsstring * jsstring -> Prop) w :
  Forall (fun e => Forall P (fetch_call e)) (trace w) ->
  Forall P (fetch_calls w).
Proof.
  intros Hw; unfold fetch_calls; apply Forall_forall; intros c Hc.
  apply in_flat_map in Hc as (e & He & Hc).
  apply in_rev in He.
  rewrite Forall_forall in Hw; specialize (Hw e He).
  rewrite Forall_forall in Hw; now apply Hw.
Qed.

(** Every call of [fetch] a request makes from the initial world has the
    request's method and the base URL followed by the request's path. *)
Lemma request_fetch_calls H config method path body :
  Forall (eq (method, apiUrl config ++ path))
    (fetch_calls (snd (request H config method path body initial_world))).
Proof.
  apply fetch_calls_Forall.
  destruct (request H config method path body initial_world) as [r w'] eqn:Hrun.
  refine (request_trace_invariant H config _ method path body _ _ _
            initial_world r w' _ Hrun);
    intros; cbn; repeat constructor.
Qed.

(** C6 (the code departs from it).  [storeMemory] posts to the base URL
    followed by [/v1/memories/memories], not [/v1/memories], and
    [healthCheck] gets the base URL followed by [/v1/health], not
    [/health]: every call either makes is to that URL, and in the test
    suite's own store and health scenarios one such call is made. *)
Theorem storeMemory_and_healthCheck_endpoints :
  (forall H config content metadata,
      Forall (eq (lit "POST", apiUrl config ++ lit "/v1/memories/memories"))
        (fetch_calls (snd (storeMemory H config content metadata
                             initial_world))))
  /\ (forall H config,
        Forall (eq (lit "GET", apiUrl config ++ lit "/v1/health"))
          (fetch_calls (snd (healthCheck H config initial_world))))
  /\ fetch_calls
       (snd (storeMemory
               (Scenario.scripted
                  [ Scenario.respond 201 "Created" None Scenario.stored_memory ]
                  Scenario.aborted)
               Scenario.test_config (lit "test content") None initial_world))
     = [ (lit "POST", lit "https://api.memoryrelay.net/v1/memories/memories") ]
  /\ fetch_calls
       (snd (healthCheck
               (Scenario.scripted
                  [ Scenario.respond 200 "OK" None
                      (JObject [ (lit "status", JString (lit "ok")) ]) ]
                  Scenario.aborted)
               Scenario.test_config initial_world))
     = [ (lit "GET", lit "https://api.memoryrelay.net/v1/health") ].
Proof.
  split; [|split; [|split; vm_compute; reflexivity]].
  - intros H config content metadata.
    unfold storeMemory, bind, lift.
    destruct (validateContentSize content); [|constructor].
    apply request_fetch_calls.
  - intros H config.
    rewrite healthCheck_outcome.
    pose proof (request_fetch_calls H config (lit "GET") (lit "/v1/health") None)
      as Hcalls.
    now destruct (request _ _ _ _ _ _) as [[v|e] w1].
Qed.

(** ** Where the retry test misclassifies *)

(** C1 (the code departs from it).  The retry test looks for the digits
    400, 401, 403 and 404 anywhere in the error message, not at a
    status code.  With a configured timeout of 4000 ms, a request that
    times out on every attempt is surfaced after a single attempt, its
    message [Request timeout after 4000ms] holding [400]; with 5000 ms
    the same failure is retried to the fourth attempt.  Likewise a 500
    response whose message mentions 404 is not retried, and a 401
    response whose body is the JSON value [null] is retried, the message
    of the [TypeError] it ends in holding no status. *)
Theorem withRetry_misreads_digits_as_status :
  let always_times_out := Scenario.scripted [] Scenario.aborted in
  let run timeout :=
    request always_times_out
      (mkConfig (lit "mem_test_1234567890abcdef")
         (lit "https://api.memoryrelay.net") (lit "test-agent") timeout)
      (lit "GET") (lit "/v1/entities/42") None initial_world in
  let answering status statusText data :=
    request
      (Scenario.scripted [] (Scenario.respond status statusText None data))
      Scenario.test_config
      (lit "GET") (lit "/v1/entities/42") None initial_world in
  let run500 :=
    answering 500 "Internal Server Error"%string
      (JObject [ (lit "message", JString (lit "upstream answered 404")) ]) in
  let run401 := answering 401 "Unauthorized"%string JNull in
  (fst (run 4000) = Throw (new_Error (lit "Request timeout after 4000ms"))
   /\ fetch_count (snd (run 4000)) = 1%nat)
  /\ (fst (run 5000) = Throw (new_Error (lit "Request timeout after 5000ms"))
      /\ fetch_count (snd (run 5000)) = 4%nat)
  /\ (fst run500
      = Throw (new_Error
                 (lit "API request failed: 500 Internal Server Error - upstream answered 404"))
      /\ fetch_count (snd run500) = 1%nat)
  /\ (fst run401
      = Throw (mkError (lit "TypeError")
                 (lit "Cannot read properties of null (reading 'message')"))
      /\ fetch_count (snd run401) = 4%nat).
Proof. vm_compute; repeat split. Qed.

(** C4 (the code departs from it).  A 429 answer with [Retry-After: 4]
    makes the executor sleep 4000 ms and raise
    [Rate limited: 429 - Retry after 4000ms]; that message holds [400],
    so the retry loop surfaces it at once and the request is not
    attempted again, whereas with [Retry-After: 1] the second attempt is
    made and succeeds.  A header that does not parse, such as [soon],
    gives a wait of [NaN], not of 5000 ms; an absent header gives
    5000 ms. *)
Theorem rate_limit_wait_can_stop_the_retries :
  let run retryAfter :=
    storeMemory
      (Scenario.scripted
         [ Scenario.respond 429 "Too Many Requests" retryAfter (JObject []);
           Scenario.respond 200 "OK" None Scenario.stored_memory ]
         Scenario.aborted)
      Scenario.test_config (lit "test content") None initial_world in
  let waits w :=
    flat_map (fun e => match e with
                       | EvRateLimitSleep waitMs => [ waitMs ]
                       | _ => []
                       end) (trace w) in
  (fst (run (Some "4"%string))
   = Throw (new_Error (lit "Rate limited: 429 - Retry after 4000ms"))
   /\ fetch_count (snd (run (Some "4"%string))) = 1%nat
   /\ waits (snd (run (Some "4"%string))) = [ Int 4000 ])
  /\ (fst (run (Some "1"%string)) = Ok Scenario.stored_memory
      /\ fetch_count (snd (run (Some "1"%string))) = 2%nat
      /\ waits (snd (run (Some "1"%string))) = [ Int 1000 ])
  /\ waits (snd (run (Some "soon"%string))) = [ NaN ]
  /\ waits (snd (run None)) = [ Int 5000 ].
Proof. vm_compute; repeat split. Qed.

(** ** Further properties of the retry policy and the executor *)

Section RetryLog.
Context {S T : Type}.
Variable sleep : Q -> S -> S.
Variable random : S -> Q * S.
Variable fn : M S T.
Variable retries : Z.

Lemma backoff_logged a s (log : list (Result T)) :
  backoff (logged_sleep sleep) (logged_random random) a (s, log)
  = (backoff sleep random a s, log).
Proof.
  unfold backoff, logged_random, logged_sleep.
  now destruct (random s) as [q s1].
Qed.

(** The outcomes of the invocations of a run of the loop: all but the
    last failed retryably, the last is the outcome of the run, and the
    run goes on to the last iteration only through retryable failures. *)
Lemma retry_loop_log n :
  forall a last0 s log,
    n <> O -> Z.of_nat n + a = retries + 1 ->
    Forall failed_retryably log ->
    let run :=
      retry_loop (logged_sleep sleep) (logged_random random) (logged fn)
        retries n a last0 (s, log) in
    exists last earlier,
      snd (snd run) = last :: earlier
      /\ fst run = last
      /\ Forall failed_retryably earlier
      /\ (List.length earlier < List.length log + n)%nat
      /\ match last with
         | Ok _ => True
         | Throw e =>
             dont_retry e = true
             \/ Datatypes.S (List.length earlier) = (List.length log + n)%nat
         end.
Proof.
  induction n as [|n IH]; intros a last0 s log Hn Ha Hlog; [congruence|].
  cbn [retry_loop logged].
  destruct (fn s) as [[v|err] s1].
  - exists (Ok v), log; cbn; repeat split; [exact Hlog|lia].
  - destruct (dont_retry err) eqn:Herr.
    + exists (Throw err), log; cbn; repeat split; [exact Hlog|lia|now left].
    + destruct (Z.eqb_spec a retries) as [Heq|Hne].
      * exists (Throw err), log; cbn; repeat split; [exact Hlog|lia|right; lia].
      * rewrite backoff_logged.
        destruct (IH (a + 1) (Some err) (backoff sleep random a s1)
                    (Throw err :: log))
          as (last & earlier & Hsnd & Hfst & Hearlier & Hlen & Hlast);
          [lia|lia|constructor; [now exists err|exact Hlog]|].
        exists last, earlier; cbn [List.length] in Hlen, Hlast.
        repeat split; [exact Hsnd|exact Hfst|exact Hearlier|lia|].
        destruct last as [v|e]; [exact I|].
        destruct Hlast as [Hlast|Hlast]; [now left|right; lia].
Qed.

End RetryLog.

(** X1.  What [withRetry] does decide by, at every attempt.  With the
    outcomes of the invocations recorded, a run with the default budget
    shows: every invocation but the last failed with an error whose
    message holds none of 400, 401, 403 and 404; the outcome of the run
    is that of the last invocation; and when that is a failure, either
    its message holds one of the four numbers or it was the fourth
    invocation.  So an error whose message holds one of them is
    surfaced by the invocation that threw it, whichever it was, and no
    invocation follows it. *)
Theorem withRetry_decides_by_message {S T : Type}
    (sleep : Q -> S -> S) (random : S -> Q * S) (fn : M S T) (s : S) :
  let run :=
    withRetry (logged_sleep sleep) (logged_random random) (logged fn)
      MAX_RETRIES (s, []) in
  exists last earlier,
    snd (snd run) = last :: earlier
    /\ fst run = last
    /\ Forall failed_retryably earlier
    /\ (List.length earlier <= 3)%nat
    /\ match last with
       | Ok _ => True
       | Throw e => dont_retry e = true \/ List.length earlier = 3%nat
       end.
Proof.
  intros run; subst run; unfold withRetry.
  destruct (retry_loop_log sleep random fn MAX_RETRIES 4 0 None s [])
    as (last & earlier & Hsnd & Hfst & Hearlier & Hlen & Hlast);
    [discriminate|reflexivity|constructor|].
  exists last, earlier; cbn [List.length] in Hlen, Hlast.
  repeat split; [exact Hsnd|exact Hfst|exact Hearlier|lia|].
  destruct last as [v|e]; [exact I|].
  destruct Hlast as [Hlast|Hlast]; [now left|right; lia].
Qed.

(** An operation whose second error mentions 404: the third invocation,
    which would succeed, is not made. *)
Example withRetry_surfaces_a_later_404 :
  withRetry (logged_sleep Scenario.no_sleep)
    (logged_random Scenario.fixed_random)
    (logged (Scenario.from_script (Ok 0%nat))) MAX_RETRIES
    ([ Throw (new_Error (lit "API request failed: 503 Service Unavailable"));
       Throw (new_Error (lit "API request failed: 404 Not Found"));
       Ok 1%nat ], [])
  = (Throw (new_Error (lit "API request failed: 404 Not Found")),
     ([ Ok 1%nat ],
      [ Throw (new_Error (lit "API request failed: 404 Not Found"));
        Throw (new_Error (lit "API request failed: 503 Service Unavailable")) ])).
Proof. reflexivity. Qed.

Lemma request_fetch_bounds H config method path body w :
  (fetch_count w
   < fetch_count (snd (request H config method path body w))
   <= fetch_count w + 4)%nat.
Proof.
  unfold request, withRetry.
  destruct (retry_loop_measure sleep (random H)
              (attempt H config method path body) MAX_RETRIES fetch_count)
    with (n := 4%nat) (a := 0) (last := @None Error) (s := w)
    as [[_ Hle] Hlt].
  - intros s.
    destruct (attempt_events H config method path body s) as [-> | [n ->]];
      reflexivity.
  - reflexivity.
  - reflexivity.
  - split; [apply Hlt; discriminate|exact Hle].
Qed.

(** X2.  A request makes at least one and at most four calls of
    [fetch], whatever the host answers. *)
Theorem request_fetches_between_one_and_four (H : Host)
    (config : ClientConfig) (method path : jsstring) (body : option json)
    (w : World) :
  let w' := snd (request H config method path body w) in
  (fetch_count w < fetch_count w' <= fetch_count w + 4)%nat.
Proof. intros w'; apply request_fetch_bounds. Qed.

(** A prefix in which the first code unit of the pattern does not occur
    is left as it is. *)
Lemma replace_all_keeps_prefix c k r a t :
  ~ In c a ->
  replace_all (c :: k) r (a ++ t) = a ++ replace_all (c :: k) r t.
Proof.
  induction a as [|x a IH]; intros Hc; [reflexivity|].
  change ((x :: a) ++ t) with (x :: (a ++ t)).
  rewrite replace_all_miss.
  - rewrite IH; [reflexivity|].
    intros Hin; apply Hc; now right.
  - simpl; destruct (N.eqb_spec c x) as [->|_]; [|reflexivity].
    exfalso; apply Hc; now left.
Qed.

(** What one attempt ends in when the server answers 400, 401, 403 or
    404 with a body whose error detail can be read and printed. *)
Lemma attempt_client_error H config method path body w response detail :
  literal_pattern (apiKey config) = true ->
  starts_with (lit "mem_") (apiKey config) = true ->
  fetch H (fetch_count w) (apiUrl config ++ path)
    (request_init config method body) = Responded response ->
  In (status response) [400; 401; 403; 404] ->
  error_detail (error_body response) = Ok detail ->
  exists rest,
    attempt H config method path body w
    = (Throw (new_Error (lit "API request failed: "
                           ++ Number_toString (status response) ++ rest)),
       record_event
         (EvFetch (apiUrl config ++ path) (request_init config method body)) w).
Proof.
  intros Hlit Hmem Hfetch Hstatus Hbody.
  destruct (starts_with_inv _ _ Hmem) as [k' Hk].
  unfold attempt, try_catch; rewrite Hfetch.
  assert (Hok : negb (ok response) = true /\ (status response =? 429) = false).
  { unfold ok; simpl in Hstatus.
    destruct Hstatus as [<-|[<-|[<-|[<-|[]]]]]; now split. }
  destruct Hok as [-> H429].
  unfold on_failure_status; rewrite H429, Hbody.
  unfold bind, lift, throw, on_error.
  rewrite !maskApiKey_literal by exact Hlit.
  cbn [name new_Error message].
  assert (Hm : ~ In 109%N
                 (lit "API request failed: "
                    ++ Number_toString (status response))).
  { simpl in Hstatus.
    destruct Hstatus as [<-|[<-|[<-|[<-|[]]]]]; vm_compute; intuition congruence. }
  rewrite (app_assoc (lit "API request failed: ")).
  rewrite Hk; change (lit "mem_" ++ k') with (109%N :: (lit "em_" ++ k')).
  rewrite !replace_all_keeps_prefix by exact Hm.
  rewrite <- app_assoc.
  eexists; reflexivity.
Qed.

(** X4.  For a key without pattern syntax characters that begins with
    [mem_], a response of status 400, 401, 403 or 404 whose error detail
    can be read and printed (the body is not [null], and its [message]
    property, when there is a truthy one, converts to a string) ends the
    request after that one call of [fetch], with an error whose message
    starts with the status. *)
Theorem request_client_error_single_attempt (H : Host)
    (config : ClientConfig) (method path : jsstring) (body : option json)
    (w : World) (response : Response) (detail : jsstring) :
  literal_pattern (apiKey config) = true ->
  starts_with (lit "mem_") (apiKey config) = true ->
  fetch H (fetch_count w) (apiUrl config ++ path)
    (request_init config method body) = Responded response ->
  In (status response) [400; 401; 403; 404] ->
  error_detail (error_body response) = Ok detail ->
  exists e,
    request H config method path body w
    = (Throw e,
       record_event
         (EvFetch (apiUrl config ++ path) (request_init config method body)) w)
    /\ starts_with
         (lit "API request failed: " ++ Number_toString (status response))
         (message e) = true.
Proof.
  intros Hlit Hmem Hfetch Hstatus Hbody.
  destruct (attempt_client_error H config method path body w response detail
              Hlit Hmem Hfetch Hstatus Hbody) as [rest Hrun].
  eexists; split.
  - unfold request, withRetry; simpl retry_loop; rewrite Hrun.
    replace (dont_retry _) with true; [reflexivity|].
    symmetry; unfold dont_retry; cbn [message new_Error].
    rewrite app_assoc.
    simpl in Hstatus.
    destruct Hstatus as [<-|[<-|[<-|[<-|[]]]]];
      repeat (apply orb_true_iff; first
                [ left; apply includes_extend; reflexivity
                | right; apply includes_extend; reflexivity
                | left ]).
  - cbn [message new_Error]; rewrite app_assoc; apply starts_with_app.
Qed.

(** X4 in the not-found scenario of the test suite. *)
Lemma request_404_single_attempt :
  let H :=
    Scenario.scripted
      [ Scenario.respond 404 "Not Found" None
          (JObject [ (lit "message", JString (lit "Memory not found")) ]) ]
      Scenario.aborted in
  let path := lit "/v1/memories/memories/non-existent-id" in
  exists e,
    request H Scenario.test_config (lit "GET") path None initial_world
    = (Throw e,
       record_event
         (EvFetch (apiUrl Scenario.test_config ++ path)
            (request_init Scenario.test_config (lit "GET") None))
         initial_world)
    /\ starts_with (lit "API request failed: 404") (message e) = true.
Proof.
  apply (request_client_error_single_attempt
           (Scenario.scripted
              [ Scenario.respond 404 "Not Found" None
                  (JObject [ (lit "message", JString (lit "Memory not found")) ]) ]
              Scenario.aborted)
           Scenario.test_config (lit "GET")
           (lit "/v1/memories/memories/non-existent-id") None initial_world
           (mkResponse 404 (lit "Not Found") None
              (Ok (JObject [ (lit "message",
                              JString (lit "Memory not found")) ])))
           (lit " - Memory not found"));
    [reflexivity|reflexivity|reflexivity|simpl; tauto|reflexivity].
Defined.

(** A 404 whose [message] is an object with a property [toString] of
    its own: printing the message throws a [TypeError], whose text
    holds no status, and the request is attempted four times. *)
Example request_404_with_unprintable_message :
  let run :=
    request
      (Scenario.scripted []
         (Scenario.respond 404 "Not Found" None
            (JObject [ (lit "message",
                        JObject [ (lit "toString", JNumber (lit "1")) ]) ])))
      Scenario.test_config (lit "GET") (lit "/v1/entities/42") None
      initial_world in
  fst run
  = Throw (mkError (lit "TypeError")
             (lit "Cannot convert object to primitive value"))
  /\ fetch_count (snd run) = 4%nat.
Proof. vm_compute; split; reflexivity. Qed.

(** The health check of the test suite against a host that refuses
    every connection: four attempts, then the degraded report. *)
Example healthCheck_connection_refused :
  let run := healthCheck Scenario.offline Scenario.test_config initial_world in
  fst run
  = Ok (Health.mk (lit "unhealthy")
          (lit "API connection failed: Connection refused"))
  /\ fetch_count (snd run) = 4%nat.
Proof. vm_compute; split; reflexivity. Qed.

(** ** What a request returns, and what it waits for *)

Section RetryOutcomes.
Context {S T : Type}.
Variable sleep : Q -> S -> S.
Variable random : S -> Q * S.
Variable fn : M S T.
Variable retries : Z.

(** Whatever the loop returns was returned by an invocation, and the
    loop ended there. *)
Lemma retry_loop_returns n :
  forall a last s v s',
    retry_loop sleep random fn retries n a last s = (Ok v, s') ->
    exists s0, fn s0 = (Ok v, s').
Proof.
  induction n as [|n IH]; intros a last s v s' Hrun; [discriminate|].
  simpl in Hrun.
  destruct (fn s) as [[v0|err] s1] eqn:Hcall.
  - injection Hrun as <- <-; now exists s.
  - destruct (dont_retry err); [discriminate|].
    destruct (a =? retries); [discriminate|].
    eapply IH, Hrun.
Qed.

(** Two counters, one advanced by each invocation and one by each
    backoff: when the loop ends, the first has advanced by one more
    than the second. *)
Lemma retry_loop_balance (mu nu : S -> nat) :
  (forall s, mu (snd (fn s)) = Datatypes.S (mu s)) ->
  (forall s, nu (snd (fn s)) = nu s) ->
  (forall a s, mu (backoff sleep random a s) = mu s
               /\ nu (backoff sleep random a s) = Datatypes.S (nu s)) ->
  forall n a last s,
    n <> O -> Z.of_nat n + a = retries + 1 ->
    let s' := snd (retry_loop sleep random fn retries n a last s) in
    (mu s' + nu s = mu s + nu s' + 1)%nat.
Proof.
  intros Hmu Hnu Hb.
  induction n as [|n IH]; intros a last s Hn Ha0; [congruence|].
  simpl; pose proof (Hmu s) as H1; pose proof (Hnu s) as H2.
  destruct (fn s) as [[v|err] s1]; simpl in H1, H2 |- *; [lia|].
  destruct (dont_retry err); [simpl; lia|].
  destruct (Z.eqb_spec a retries) as [Ha|Ha]; [simpl; lia|].
  destruct (Hb a s1) as [Hb1 Hb2].
  destruct n as [|n]; [lia|].
  specialize (IH (a + 1) (Some err) (backoff sleep random a s1)
                ltac:(discriminate) ltac:(lia)).
  cbv zeta in IH; lia.
Qed.

End RetryOutcomes.

(** An attempt returns only the body of an answer with a success
    status, right after its call of [fetch]. *)
Lemma attempt_returns H config method path body w v w' :
  attempt H config method path body w = (Ok v, w') ->
  exists response,
    fetch H (fetch_count w) (apiUrl config ++ path)
      (request_init config method body) = Responded response
    /\ ok response = true
    /\ json_body response = Ok v
    /\ w' = record_event
              (EvFetch (apiUrl config ++ path)
                 (request_init config method body)) w.
Proof.
  unfold attempt, try_catch.
  set (w1 := record_event _ w).
  destruct (fetch H _ _ _) as [e|response].
  - destruct (on_error_rethrows H config e w1) as [e' ->]; discriminate.
  - destruct (ok response) eqn:Hok; simpl negb; cbv iota.
    + destruct (json_body response) as [v0|e] eqn:Hbody.
      * intros [= <- <-]; exists response; auto.
      * destruct (on_error_rethrows H config e w1) as [e' ->]; discriminate.
    + destruct (on_failure_status_throws H config response w1)
        as [e [-> | [n ->]]].
      * destruct (on_error_rethrows H config e w1) as [e' ->]; discriminate.
      * destruct (on_error_rethrows H config e
                    (record_event (EvRateLimitSleep n) w1)) as [e' ->];
          discriminate.
Qed.

(** A first answer with a success status and a readable body ends the
    request at once. *)
Lemma request_first_success H config method path body w response v :
  fetch H (fetch_count w) (apiUrl config ++ path)
    (request_init config method body) = Responded response ->
  ok response = true ->
  json_body response = Ok v ->
  request H config method path body w
  = (Ok v,
     record_event
       (EvFetch (apiUrl config ++ path) (request_init config method body)) w).
Proof.
  intros Hfetch Hok Hbody.
  unfold request, withRetry; simpl retry_loop.
  unfold attempt at 1, try_catch.
  now rewrite Hfetch, Hok, Hbody.
Qed.

Lemma fetch_count_record_fetch url init w :
  fetch_count (record_event (EvFetch url init) w) = S (fetch_count w).
Proof. reflexivity. Qed.

(** X5.  A request returns nothing of its own making: the value it
    returns is the JSON body of an answer with a status in 200-299 to
    the last call of [fetch] it made.  Conversely, when the first answer
    has such a status and a readable body, the request returns that
    body after this single call, with no wait. *)
Theorem request_returns_body_of_last_answer (H : Host) (config : ClientConfig)
    (method path : jsstring) (body : option json) (w : World) :
  (forall v w',
      request H config method path body w = (Ok v, w') ->
      exists response,
        fetch H (Nat.pred (fetch_count w')) (apiUrl config ++ path)
          (request_init config method body) = Responded response
        /\ ok response = true
        /\ json_body response = Ok v)
  /\ (forall response v,
        fetch H (fetch_count w) (apiUrl config ++ path)
          (request_init config method body) = Responded response ->
        ok response = true ->
        json_body response = Ok v ->
        request H config method path body w
        = (Ok v,
           record_event
             (EvFetch (apiUrl config ++ path)
                (request_init config method body)) w)).
Proof.
  split.
  - intros v w' Hrun; unfold request, withRetry in Hrun.
    apply retry_loop_returns in Hrun as [s0 Hcall].
    apply attempt_returns in Hcall as (response & Hfetch & Hok & Hbody & ->).
    exists response; rewrite fetch_count_record_fetch; auto.
  - intros response v; apply request_first_success.
Qed.

(** X5 in the store scenario of the test suite. *)
Lemma storeMemory_returns_the_created_memory :
  request
    (Scenario.scripted
       [ Scenario.respond 201 "Created" None Scenario.stored_memory ]
       Scenario.aborted)
    Scenario.test_config (lit "POST") (lit "/v1/memories/memories") None
    initial_world
  = (Ok Scenario.stored_memory,
     record_event
       (EvFetch (apiUrl Scenario.test_config ++ lit "/v1/memories/memories")
          (request_init Scenario.test_config (lit "POST") None))
       initial_world).
Proof.
  apply (proj2 (request_returns_body_of_last_answer
                  (Scenario.scripted
                     [ Scenario.respond 201 "Created" None
                         Scenario.stored_memory ]
                     Scenario.aborted)
                  Scenario.test_config (lit "POST")
                  (lit "/v1/memories/memories") None initial_world)
           (mkResponse 201 (lit "Created") None (Ok Scenario.stored_memory)));
    reflexivity.
Defined.

Lemma attempt_counts H config method path body w :
  fetch_count (snd (attempt H config method path body w))
  = S (fetch_count w)
  /\ backoff_count (snd (attempt H config method path body w))
     = backoff_count w.
Proof.
  destruct (attempt_events H config method path body w) as [-> | [n ->]];
    split; reflexivity.
Qed.

(** X6.  Between two calls of [fetch] of one request lies exactly one
    backoff wait, and one draw of [Math.random] for its jitter: a
    request that made [n] calls made [n - 1] backoff waits and draws. *)
Theorem request_waits_once_per_retry (H : Host) (config : ClientConfig)
    (method path : jsstring) (body : option json) (w : World) :
  let w' := snd (request H config method path body w) in
  (fetch_count w' + backoff_count w = fetch_count w + backoff_count w' + 1)%nat
  /\ (fetch_count w' + draws w = fetch_count w + draws w' + 1)%nat.
Proof.
  intros w'; subst w'; unfold request, withRetry; split.
  - apply (retry_loop_balance sleep (random H)
             (attempt H config method path body) MAX_RETRIES
             fetch_count backoff_count); try discriminate; try reflexivity.
    + intros s; apply attempt_counts.
    + intros s; apply attempt_counts.
    + intros a s; split; reflexivity.
  - apply (retry_loop_balance sleep (random H)
             (attempt H config method path body) MAX_RETRIES
             fetch_count draws); try discriminate; try reflexivity.
    + intros s; apply attempt_counts.
    + intros s.
      destruct (attempt_events H config method path body s) as [-> | [n ->]];
        reflexivity.
    + intros a s; split; reflexivity.
Qed.

(** ** All methods of the client *)





(** The two errors a method raises by itself. *)
Lemma perform_throws H config (P : Error -> Prop) :
  P (new_Error (lit "Content exceeds maximum size of 51200 bytes")) ->
  P (mkError (lit "TypeError")
       (lit "Cannot read properties of null (reading 'data')")) ->
  (forall method path body w0 e w1,
      request H config method path body w0 = (Throw e, w1) -> P e) ->
  forall call w e w',
    perform H config call w = (Throw e, w') -> P e.
Proof.
  intros Hsize Hnull Hreq call w e w'.
  assert (Hv : forall c e0, validateContentSize c = Throw e0 ->
               e0 = new_Error (lit "Content exceeds maximum size of 51200 bytes")).
  { intros c e0; unfold validateContentSize.
    destruct (strlen c >? MAX_CONTENT_SIZE); [|discriminate].
    now intros [= <-]. }
  assert (Hg : forall v e0, get_property v (lit "data") = Throw e0 ->
               e0 = mkError (lit "TypeError")
                      (lit "Cannot read properties of null (reading 'data')")).
  { intros v e0; destruct v; simpl; try discriminate.
    now intros [= <-]. }
  destruct call; unfold perform, discard;
    unfold storeMemory, searchMemories, listMemories, getMemory, updateMemory,
      deleteMemory, createEntity, linkEntity, getEntity, listEntities,
      deleteEntity, bind, lift, ret;
    rewrite ?healthCheck_outcome.
  all: repeat match goal with
         | |- context [validateContentSize ?c] =>
             let E := fresh "Hval" in
             destruct (validateContentSize c) eqn:E;
             [|apply Hv in E; subst]
         | |- context [request ?h ?c ?m ?p ?b ?w] =>
             let E := fresh "Hrun" in
             destruct (request h c m p b w) as [[? | ?] ?] eqn:E
         | |- context [get_property ?v ?k] =>
             let E := fresh "Hget" in
             destruct (get_property v k) eqn:E; [|apply Hg in E; subst]
         end.
  all: intros Hrun'; try discriminate;
    injection Hrun' as <- <-; eauto.
Qed.

Lemma includes_skip_prefix c k a t :
  ~ In c a -> includes (c :: k) (a ++ t) = includes (c :: k) t.
Proof.
  induction a as [|x a IH]; intros Hc; [reflexivity|].
  change ((x :: a) ++ t) with (x :: (a ++ t)).
  cbn [includes starts_with].
  destruct (N.eqb_spec c x) as [->|_]; [exfalso; apply Hc; now left|].
  apply IH; intros Hin; apply Hc; now right.
Qed.

(** A text without an underscore holds no key that begins with [mem_]. *)
Lemma no_underscore_no_key k s :
  starts_with (lit "mem_") k = true -> ~ In 95%N s -> includes k s = false.
Proof.
  intros Hk Hs; destruct (includes k s) eqn:E; [exfalso|reflexivity].
  apply Hs; eapply includes_In; [exact E|now apply mem_prefix_underscore].
Qed.

(** A key that begins with [mem_] does not start inside a text without
    the letter m. *)
Lemma no_key_after_prefix k a t :
  starts_with (lit "mem_") k = true -> ~ In 109%N a ->
  includes k (a ++ t) = includes k t.
Proof.
  intros Hk Ha; destruct (starts_with_inv _ _ Hk) as [k' ->].
  change (lit "mem_" ++ k') with (109%N :: (lit "em_" ++ k')).
  now apply includes_skip_prefix.
Qed.

Lemma request_throws_masked H config method path body w e w' :
  literal_pattern (apiKey config) = true ->
  (8 < List.length (apiKey config))%nat ->
  starts_with (lit "mem_") (apiKey config) = true ->
  request H config method path body w = (Throw e, w') ->
  includes (apiKey config) (message e) = false.
Proof.
  intros Hlit Hlen Hmem; unfold request.
  apply (withRetry_throws sleep (random H) (attempt H config method path body)
           MAX_RETRIES
           (fun e => includes (apiKey config) (message e) = false));
    [discriminate|].
  intros s e0 s' Hrun.
  destruct (attempt_throws_via_on_error _ _ _ _ _ _ _ _ Hrun)
    as (error & w0 & Herr).
  eapply on_error_hides_key; eauto.
Qed.

(** X8.  For a key longer than eight code units, without pattern syntax
    characters, that begins with [mem_]: no error thrown by any method
    of the client, and no message reported by [healthCheck], holds the
    key. *)
Theorem client_failures_hide_key (H : Host) (config : ClientConfig) :
  literal_pattern (apiKey config) = true ->
  (8 < List.length (apiKey config))%nat ->
  starts_with (lit "mem_") (apiKey config) = true ->
  (forall call w e w',
      perform H config call w = (Throw e, w') ->
      includes (apiKey config) (message e) = false)
  /\ (forall w h w',
        healthCheck H config w = (Ok h, w') ->
        includes (apiKey config) (Health.message h) = false).
Proof.
  intros Hlit Hlen Hmem; split.
  - intros call w e w'.
    apply (perform_throws H config
             (fun e => includes (apiKey config) (message e) = false)).
    + apply no_underscore_no_key; [exact Hmem|].
      vm_compute; intuition congruence.
    + apply no_underscore_no_key; [exact Hmem|].
      vm_compute; intuition congruence.
    + intros method path body w0 e0 w1.
      now apply request_throws_masked.
  - intros w h w'; rewrite healthCheck_outcome.
    destruct (request _ _ _ _ _ _) as [[v|e] w1] eqn:Hrun; intros [= <- _].
    + apply no_underscore_no_key; [exact Hmem|].
      vm_compute; intuition congruence.
    + change (includes (apiKey config)
                (lit "API connection failed: " ++ message e) = false).
      rewrite no_key_after_prefix
        by (try exact Hmem; vm_compute; intuition congruence).
      eapply request_throws_masked; eauto.
Qed.

(** X8 at a health check whose every attempt is refused with a message
    that quotes the key. *)
Lemma health_report_hides_test_key :
  exists h w',
    healthCheck
      (Scenario.scripted []
         (Rejected (mkError (lit "TypeError")
                      (lit "connect ECONNREFUSED (Bearer mem_test_1234567890abcdef)"))))
      Scenario.test_config initial_world
    = (Ok h, w')
    /\ Health.message h
       = lit "API connection failed: connect ECONNREFUSED (Bearer mem_test***)"
    /\ includes (apiKey Scenario.test_config) (Health.message h) = false.
Proof.
  eexists; eexists; split; [vm_compute; reflexivity|].
  split; [reflexivity|].
  eapply (proj2 (client_failures_hide_key
                   (Scenario.scripted []
                      (Rejected (mkError (lit "TypeError")
                                   (lit "connect ECONNREFUSED (Bearer mem_test_1234567890abcdef)"))))
                   Scenario.test_config eq_refl ltac:(simpl; lia) eq_refl)
            initial_world).
  vm_compute; reflexivity.
Defined.

(** ** More on the redactor *)

(** X3.  On a key without pattern syntax characters the redactor leaves
    a text in which the key does not occur as it is, and, when the key
    is longer than eight code units, redacting a second time changes
    nothing (the executor redacts the message of a failure status
    twice); with an empty key every text is left as it is. *)
Theorem maskApiKey_stable (H : Host) (s k : jsstring) :
  maskApiKey H s [] = Ok s
  /\ (literal_pattern k = true ->
      (includes k s = false -> maskApiKey H s k = Ok s)
      /\ ((8 < List.length k)%nat ->
          exists out, maskApiKey H s k = Ok out /\ maskApiKey H out k = Ok out)).
Proof.
  split; [reflexivity|]; intros Hk; split.
  - intros Hs; rewrite maskApiKey_literal by exact Hk.
    now rewrite replace_all_absent.
  - intros Hlen; eexists; split; [now apply maskApiKey_literal|].
    rewrite maskApiKey_literal by exact Hk.
    now rewrite replace_all_absent by now apply masked_excludes_key.
Qed.

(** X3 at the key and a message of the test suite. *)
Lemma maskApiKey_twice_is_once :
  exists out,
    maskApiKey Scenario.offline
      (lit "Key: mem_test_1234567890abcdef failed")
      (lit "mem_test_1234567890abcdef")
    = Ok out
    /\ maskApiKey Scenario.offline out (lit "mem_test_1234567890abcdef")
       = Ok out.
Proof.
  apply (proj2 (maskApiKey_stable Scenario.offline
                  (lit "Key: mem_test_1234567890abcdef failed")
                  (lit "mem_test_1234567890abcdef")) eq_refl).
  simpl; lia.
Defined.

(** ** Search *)

(** X14.  When the first answer to a search has a success status and a
    readable body, [searchMemories] makes that one call and evaluates
    the [data] property of the body: it returns the property, returns
    [undefined] when the body has none, and throws a [TypeError] when
    the body is [null]. *)
Theorem searchMemories_unwraps_data (H : Host) (config : ClientConfig)
    (query : jsstring) (limit threshold : option jsstring) (w : World)
    (response : Response) (v : json) :
  let body :=
    Some (object
            [ (lit "query", Some (JString query));
              (lit "limit",
               Some (JNumber match limit with
                             | Some l => l
                             | None => lit "10"
                             end));
              (lit "threshold",
               Some (JNumber match threshold with
                             | Some t => t
                             | None => lit "0.5"
                             end));
              (lit "agent_id", Some (JString (agentId config))) ]) in
  let url := apiUrl config ++ lit "/v1/memories/memories/search" in
  strlen query <= 51200 ->
  fetch H (fetch_count w) url (request_init config (lit "POST") body)
  = Responded response ->
  ok response = true ->
  json_body response = Ok v ->
  searchMemories H config query limit threshold w
  = (match v with
     | JNull =>
         Throw (mkError (lit "TypeError")
                  (lit "Cannot read properties of null (reading 'data')"))
     | JObject fields => Ok (lookup (lit "data") fields)
     | _ => Ok None
     end,
     record_event (EvFetch url (request_init config (lit "POST") body)) w).
Proof.
  intros body url Hlen Hfetch Hok Hbody.
  unfold searchMemories, bind, lift.
  rewrite (validateContentSize_accepts query Hlen).
  fold body.
  rewrite (request_first_success H config (lit "POST")
             (lit "/v1/memories/memories/search") body w response v
             Hfetch Hok Hbody).
  fold url; now destruct v.
Qed.

(** X14 in the search scenario of the test suite. *)
Lemma searchMemories_returns_the_results :
  fst (searchMemories
         (Scenario.scripted
            [ Scenario.respond 200 "OK" None
                (JObject [ (lit "data", JArray [ Scenario.stored_memory ]) ]) ]
            Scenario.aborted)
         Scenario.test_config (lit "test query") (Some (lit "10"))
         (Some (lit "0.5")) initial_world)
  = Ok (Some (JArray [ Scenario.stored_memory ])).
Proof.
  rewrite (searchMemories_unwraps_data
             (Scenario.scripted
                [ Scenario.respond 200 "OK" None
                    (JObject [ (lit "data", JArray [ Scenario.stored_memory ]) ]) ]
                Scenario.aborted)
             Scenario.test_config (lit "test query") (Some (lit "10"))
             (Some (lit "0.5")) initial_world
             (mkResponse 200 (lit "OK") None
                (Ok (JObject [ (lit "data",
                                JArray [ Scenario.stored_memory ]) ])))
             (JObject [ (lit "data", JArray [ Scenario.stored_memory ]) ]));
    [reflexivity|vm_compute; discriminate|reflexivity|reflexivity|reflexivity].
Defined.

(** ** Rate limiting *)

Lemma number_toString_no_underscore n : ~ In 95%N (number_toString n).
Proof.
  destruct n as [|[|]|z]; cbn [number_toString];
    [vm_compute; intuition congruence..|].
  apply Number_toString_no_underscore.
Qed.

Lemma includes_inside p a s b :
  includes p s = true -> includes p (a ++ s ++ b) = true.
Proof.
  intros Hs; destruct (includes_inv _ _ Hs) as (x & y & ->).
  rewrite <- !app_assoc, app_assoc; apply includes_intro.
Qed.

(** Around the text of the wait the message holds no status. *)
Lemma rate_limit_message_digits p d :
  In p [lit "401"; lit "403"; lit "404"; lit "400"] ->
  includes p (lit "Rate limited: 429 - Retry after " ++ d ++ lit "ms")
  = includes p d.
Proof.
  intros Hp.
  assert (Hchars : ~ In 32%N p /\ ~ In 109%N p /\ p <> []
                   /\ includes p (lit "Rate limited: 429 - Retry after") = false
                   /\ includes p (lit "s") = false).
  { simpl in Hp; destruct Hp as [<-|[<-|[<-|[<-|[]]]]];
      repeat split; try discriminate; try reflexivity;
      vm_compute; intuition congruence. }
  destruct Hchars as (Hsp & Hm & Hne & Hpre & Hs).
  apply Bool.eq_true_iff_eq; split; intros Hin.
  - change (lit "Rate limited: 429 - Retry after " ++ d ++ lit "ms")
      with (lit "Rate limited: 429 - Retry after"
              ++ 32%N :: (d ++ 109%N :: lit "s")) in Hin.
    apply includes_split in Hin as [Hin|Hin]; [congruence| |exact Hsp].
    apply includes_split in Hin as [Hin|Hin]; [exact Hin|congruence|exact Hm].
  - now apply includes_inside.
Qed.

(** X15.  For a key without pattern syntax characters that begins with
    [mem_], an attempt answered with status 429 waits for the seconds
    the [Retry-After] header parses to, times 1000 (5000 ms when the
    header is absent or empty), and throws
    [Rate limited: 429 - Retry after <wait>ms]; the retry loop stops on
    that error exactly when the decimal text of the wait holds 400,
    401, 403 or 404. *)
Theorem rate_limited_attempt (H : Host) (config : ClientConfig)
    (method path : jsstring) (body : option json) (w : World)
    (response : Response) :
  let waitMs :=
    match retryAfter response with
    | Some (c :: h) => number_mul (parseInt (c :: h)) 1000
    | _ => Int 5000
    end in
  let e :=
    new_Error (lit "Rate limited: 429 - Retry after "
                 ++ number_toString waitMs ++ lit "ms") in
  literal_pattern (apiKey config) = true ->
  starts_with (lit "mem_") (apiKey config) = true ->
  fetch H (fetch_count w) (apiUrl config ++ path)
    (request_init config method body) = Responded response ->
  status response = 429 ->
  attempt H config method path body w
  = (Throw e,
     record_event (EvRateLimitSleep waitMs)
       (record_event
          (EvFetch (apiUrl config ++ path) (request_init config method body))
          w))
  /\ dont_retry e = mentions_client_error (number_toString waitMs).
Proof.
  intros waitMs e Hlit Hmem Hfetch Hstatus; split.
  - assert (Hok : negb (ok response) = true)
      by (unfold ok; now rewrite Hstatus).
    assert (Hfail : forall w1,
               on_failure_status H config response w1
               = (Throw e, record_event (EvRateLimitSleep waitMs) w1))
      by (intros w1; unfold on_failure_status; now rewrite Hstatus).
    unfold attempt, try_catch; rewrite Hfetch, Hok, Hfail.
    unfold on_error, e; cbn [name new_Error message].
    replace (jsstring_eqb (lit "Error") (lit "AbortError")) with false
      by reflexivity.
    rewrite maskApiKey_literal by exact Hlit.
    rewrite replace_all_absent; [reflexivity|].
    apply no_underscore_no_key; [exact Hmem|].
    intros Hin; apply in_app_or in Hin as [Hin|Hin];
      [vm_compute in Hin; intuition congruence|].
    apply in_app_or in Hin as [Hin|Hin];
      [now apply number_toString_no_underscore in Hin
      |vm_compute in Hin; intuition congruence].
  - unfold dont_retry, mentions_client_error, e; cbn [message new_Error].
    rewrite !rate_limit_message_digits; [reflexivity|..]; simpl; auto.
Qed.

(** X15 at the header [Retry-After: 4]. *)
Lemma rate_limited_four_seconds :
  dont_retry
    (new_Error (lit "Rate limited: 429 - Retry after "
                  ++ number_toString (number_mul (parseInt (lit "4")) 1000)
                  ++ lit "ms"))
  = mentions_client_error (lit "4000").
Proof.
  apply (rate_limited_attempt
           (Scenario.scripted
              [ Scenario.respond 429 "Too Many Requests" (Some "4"%string)
                  (JObject []) ]
              Scenario.aborted)
           Scenario.test_config (lit "POST") (lit "/v1/memories/memories")
           None initial_world
           (mkResponse 429 (lit "Too Many Requests") (Some (lit "4"))
              (Ok (JObject []))));
    reflexivity.
Defined.

(** The text of whole doubles: exact digits up to [2^53], the shortest
    digits that give the double back beyond, and an exponent from
    [10^21] on. *)
Example Number_toString_of_large_numbers :
  map Number_toString
    [ 0; -17; 51200; 2 ^ 53; 2 ^ 53 + 1; 2 ^ 63; 10 ^ 21; 2 ^ 70; 2 ^ 1024 ]
  = [ lit "0"; lit "-17"; lit "51200"; lit "9007199254740992";
      lit "9007199254740992"; lit "9223372036854776000"; lit "1e+21";
      lit "1.1805916207174113e+21"; lit "Infinity" ].
Proof. vm_compute; reflexivity. Qed.

(** A [Retry-After] of 4 followed by 22 zeros: the wait prints as
    [4e+25], which holds none of the four numbers, so the request is
    attempted again. *)
Example rate_limit_wait_in_exponent_form :
  let run :=
    storeMemory
      (Scenario.scripted
         [ Scenario.respond 429 "Too Many Requests"
             (Some "40000000000000000000000"%string) (JObject []);
           Scenario.respond 200 "OK" None Scenario.stored_memory ]
         Scenario.aborted)
      Scenario.test_config (lit "test content") None initial_world in
  number_toString (number_mul (parseInt (lit "40000000000000000000000")) 1000)
  = lit "4e+25"
  /\ fst run = Ok Scenario.stored_memory
  /\ fetch_count (snd run) = 2%nat.
Proof. vm_compute; repeat split. Qed.

(** ** More on HTML escaping *)

Lemma sanitizeHtml_app a b :
  sanitizeHtml (a ++ b) = sanitizeHtml a ++ sanitizeHtml b.
Proof.
  unfold sanitizeHtml.
  change (lit "/") with [47%N]; change (lit "'") with [39%N];
    change (lit ">") with [62%N]; change (lit "<") with [60%N];
    change (lit "&") with [38%N].
  now rewrite !replace_all_single, !flat_map_app.
Qed.

Lemma sanitizeHtml_unit c : sanitizeHtml [c] = escape_unit c.
Proof.
  unfold sanitizeHtml, escape_unit.
  change (lit "/") with [47%N]; change (lit "'") with [39%N];
    change (lit ">") with [62%N]; change (lit "<") with [60%N];
    change (lit "&") with [38%N].
  rewrite !replace_all_single.
  repeat match goal with
    | |- context [N.eqb c ?k] =>
        destruct (N.eqb_spec c k) as [-> | ?]; [reflexivity|]
    end.
  cbn [flat_map app].
  repeat match goal with
    | |- context [N.eqb ?k c] =>
        destruct (N.eqb_spec k c) as [<- | _]; [congruence|]; cbn [flat_map app]
    end.
  reflexivity.
Qed.

Lemma sanitizeHtml_cons c s :
  sanitizeHtml (c :: s) = escape_unit c ++ sanitizeHtml s.
Proof.
  change (c :: s) with ([c] ++ s).
  now rewrite sanitizeHtml_app, sanitizeHtml_unit.
Qed.

(** The six replacements in a row escape each code unit on its own. *)
Lemma sanitizeHtml_flat_map s : sanitizeHtml s = flat_map escape_unit s.
Proof.
  induction s as [|c s IH]; [reflexivity|].
  now rewrite sanitizeHtml_cons, IH.
Qed.

Lemma escape_unit_plain c : html_special c = false -> escape_unit c = [c].
Proof.
  unfold html_special, escape_unit; cbn [existsb].
  repeat (destruct (N.eqb c _); [discriminate|]); reflexivity.
Qed.

Lemma escape_unit_length c :
  (1 <= List.length (escape_unit c) <= 6)%nat.
Proof.
  unfold escape_unit.
  repeat (destruct (N.eqb c _); [simpl; lia|]); simpl; lia.
Qed.

(** Two code units with escapes that agree at the head of two texts are
    the same, and the texts agree after them. *)
Lemma escape_unit_prefix_free x y a b :
  escape_unit x ++ a = escape_unit y ++ b -> x = y /\ a = b.
Proof.
  unfold escape_unit.
  repeat match goal with
    | |- context [N.eqb x ?k] => destruct (N.eqb_spec x k) as [-> | ?]
    end;
  repeat match goal with
    | |- context [N.eqb y ?k] => destruct (N.eqb_spec y k) as [-> | ?]
    end;
  cbn; intros Heq; injection Heq; intros; subst;
    try congruence; auto.
Qed.

(** X9.  [sanitizeHtml] is the escaping of each code unit on its own:
    although it is written as six replacements in a row, no replacement
    rewrites what an earlier one wrote.  Hence it leaves a text with
    none of [&], [<], [>], ['], [/] and the double quote as it is, and
    it loses nothing: two names with the same escaped text are the same
    name. *)
Theorem sanitizeHtml_escapes_unit_by_unit :
  (forall s, sanitizeHtml s = flat_map escape_unit s)
  /\ (forall s,
        forallb (fun c => negb (html_special c)) s = true ->
        sanitizeHtml s = s)
  /\ (forall a b, sanitizeHtml a = sanitizeHtml b -> a = b).
Proof.
  split; [exact sanitizeHtml_flat_map|split].
  - induction s as [|c s IH]; [reflexivity|].
    cbn [forallb]; intros Hs; apply andb_true_iff in Hs as [Hc Hs].
    rewrite sanitizeHtml_cons, (IH Hs), escape_unit_plain; [reflexivity|].
    now apply negb_true_iff.
  - induction a as [|x a IH]; intros [|y b]; rewrite ?sanitizeHtml_cons;
      intros Heq.
    + reflexivity.
    + exfalso; pose proof (escape_unit_length y) as Hy.
      apply (f_equal (@List.length _)) in Heq.
      rewrite length_app in Heq; simpl in Heq; lia.
    + exfalso; pose proof (escape_unit_length x) as Hx.
      apply (f_equal (@List.length _)) in Heq.
      rewrite length_app in Heq; simpl in Heq; lia.
    + apply escape_unit_prefix_free in Heq as [-> Heq].
      now rewrite (IH b Heq).
Qed.

(** X9 at a name of plain words, as in the test suite. *)
Lemma sanitizeHtml_keeps_plain_name :
  sanitizeHtml (lit "John Doe - Software Developer")
  = lit "John Doe - Software Developer".
Proof.
  apply (proj1 (proj2 sanitizeHtml_escapes_unit_by_unit)); reflexivity.
Defined.

Lemma sanitizeHtml_length s :
  strlen s <= strlen (sanitizeHtml s) <= 6 * strlen s.
Proof.
  unfold strlen; induction s as [|c s IH]; [simpl; lia|].
  rewrite sanitizeHtml_cons, length_app.
  pose proof (escape_unit_length c); cbn [List.length]; lia.
Qed.

Lemma entitySchema_parse_name args input :
  entitySchema_parse args = Some input ->
  1 <= strlen (input_name input) <= 200.
Proof.
  unfold entitySchema_parse.
  destruct args as [| | | | |fields]; try discriminate.
  destruct (lookup (lit "name") fields) as [[| | |name| |]|]; try discriminate.
  destruct (lookup (lit "type") fields) as [[| | |type| |]|]; try discriminate.
  destruct ((1 <=? strlen name) && (strlen name <=? 200)
            && existsb (jsstring_eqb type) entity_types) eqn:Hc;
    [|discriminate].
  apply andb_true_iff in Hc as [Hc _]; apply andb_true_iff in Hc as [H1 H2].
  apply Z.leb_le in H1, H2.
  destruct (lookup (lit "metadata") fields) as [[| | | | |m]|];
    try discriminate.
  - destruct (string_record m); [|discriminate].
    intros [= <-]; simpl; lia.
  - intros [= <-]; simpl; lia.
Qed.

(** X10.  Escaping lengthens a text at most sixfold and never shortens
    it.  So for every argument object the schema of [entity_create]
    accepts, the escaped name has at most 1200 code units, the size
    guard of [createEntity] does not fire, and the outcome is that of
    the request, which makes between one and four calls of [fetch]; for
    arguments the schema rejects nothing is sent. *)
Theorem entity_create_reaches_the_network (H : Host) (config : ClientConfig)
    (args : json) (w : World) :
  (forall s, strlen s <= strlen (sanitizeHtml s) <= 6 * strlen s)
  /\ match entitySchema_parse args with
     | Some input =>
         strlen (sanitizeHtml (input_name input)) <= 1200
         /\ (exists r, fst (entity_create H config args w) = Some r)
         /\ (fetch_count w
             < fetch_count (snd (entity_create H config args w))
             <= fetch_count w + 4)%nat
     | None => entity_create H config args w = (None, w)
     end.
Proof.
  split; [exact sanitizeHtml_length|].
  unfold entity_create.
  destruct (entitySchema_parse args) as [input|] eqn:Hparse; [|reflexivity].
  pose proof (entitySchema_parse_name _ _ Hparse) as Hname.
  pose proof (sanitizeHtml_length (input_name input)) as Hlen.
  split; [lia|].
  unfold createEntity, bind, lift.
  rewrite validateContentSize_accepts by lia.
  pose proof (request_fetch_bounds H config (lit "POST") (lit "/v1/entities")
                (Some (object
                         [ (lit "name",
                            Some (JString (sanitizeHtml (input_name input))));
                           (lit "type", Some (JString (input_type input)));
                           (lit "metadata",
                            option_map record_json (input_metadata input)) ]))
                w) as Hcount.
  destruct (request _ _ _ _ _ _) as [r w'].
  split; [now exists r|exact Hcount].
Qed.

(** What every invocation establishes and the timers keep holds after
    the loop, when it runs at all. *)
Lemma retry_loop_establishes {S T : Type} (sleep : Q -> S -> S)
    (random : S -> Q * S) (fn : M S T) (retries : Z) (I : S -> Prop) :
  (forall s r s', fn s = (r, s') -> I s') ->
  (forall ms s, I s -> I (sleep ms s)) ->
  (forall s, I s -> I (snd (random s))) ->
  forall n a last s r s',
    n <> O ->
    retry_loop sleep random fn retries n a last s = (r, s') -> I s'.
Proof.
  intros Hfn Hsleep Hrandom [|n] a last s r s' Hn Hrun; [congruence|].
  cbn [retry_loop] in Hrun.
  destruct (fn s) as [[v|err] s1] eqn:Hcall.
  - injection Hrun as _ <-; eapply Hfn, Hcall.
  - assert (Hs1 : I s1) by (eapply Hfn, Hcall).
    destruct (dont_retry err); [|destruct (a =? retries)];
      try (injection Hrun as _ <-; exact Hs1).
    refine (retry_loop_preserves sleep random fn retries I _ Hsleep Hrandom
              _ _ _ _ _ _ _ Hrun).
    + intros s0 r0 s0' _ Hcall0; eapply Hfn, Hcall0.
    + unfold backoff.
      specialize (Hrandom _ Hs1); destruct (random s1) as [q s2].
      now apply Hsleep.
Qed.

(** A request makes its call of [fetch]. *)
Lemma request_makes_its_call H config method path body w :
  In (EvFetch (apiUrl config ++ path) (request_init config method body))
    (trace (snd (request H config method path body w))).
Proof.
  destruct (request H config method path body w) as [r w'] eqn:Hrun.
  unfold request, withRetry in Hrun.
  refine (retry_loop_establishes sleep (random H)
            (attempt H config method path body) MAX_RETRIES
            (fun s => In (EvFetch (apiUrl config ++ path)
                            (request_init config method body)) (trace s))
            _ _ _ _ _ _ _ _ _ _ Hrun).
  - intros s r0 s' Hcall.
    pose proof (attempt_events H config method path body s) as Hev.
    rewrite Hcall in Hev; cbn [snd] in Hev.
    destruct Hev as [-> | [n ->]]; cbn; auto.
  - intros ms s Hs; cbn; auto.
  - intros s Hs; exact Hs.
  - discriminate.
Qed.

(** C10.  [sanitizeHtml] replaces each [&], [<], [>], double quote, [']
    and [/] of its input by the HTML entity of that character and keeps
    every other code unit, so its output holds none of the raw
    characters [<], [>], ['] and [/] nor the double quote.  Hence every
    name [entity_create] sends to the server is free of them, in any
    world where the names sent so far were; for arguments the schema
    accepts, the name it sends, and it does send it, is the validated
    name escaped in this way; and the escaped name may be longer than
    the 200 code units validated before escaping (a valid name of 200
    [<] is sent as 800 code units). *)
Theorem entity_create_sends_escaped_name :
  (forall str, sanitizeHtml str = flat_map escape_unit str)
  /\ (forall str, delimiter_free (sanitizeHtml str))
  /\ (forall H config args w,
        names_escaped w ->
        names_escaped (snd (entity_create H config args w)))
  /\ (forall H config args input,
        entitySchema_parse args = Some input ->
        let w' := snd (entity_create H config args initial_world) in
        let sent := flat_map escape_unit (input_name input) in
        (exists e, In e (trace w') /\ transmitted_name e = Some sent)
        /\ Forall (fun e => forall n, transmitted_name e = Some n -> n = sent)
             (trace w'))
  /\ (let args :=
        JObject [ (lit "name", JString (repeat 60%N 200));
                  (lit "type", JString (lit "other")) ] in
      let w :=
        snd (entity_create
               (Scenario.scripted
                  [ Scenario.respond 201 "Created" None (JObject []) ]
                  Scenario.aborted)
               Scenario.test_config args initial_world) in
      option_map input_name (entitySchema_parse args)
      = Some (repeat 60%N 200)
      /\ map (option_map strlen) (map transmitted_name (trace w))
         = [ Some 800 ]).
Proof.
  split; [exact sanitizeHtml_flat_map|].
  split; [exact sanitizeHtml_delimiter_free|split; [|split]].
  - intros H config args w Hw; unfold entity_create.
    destruct (entitySchema_parse args) as [input|]; [|exact Hw].
    unfold createEntity, bind, lift.
    destruct (validateContentSize _); [|exact Hw].
    match goal with |- context [request ?h ?c ?m ?p ?b ?w0] =>
      destruct (request h c m p b w0) as [r w'] eqn:Hrun end.
    cbn [snd].
    refine (request_trace_invariant H config _ _ _ _ _ _ _ w r w' Hw Hrun);
      try (intros; exact I).
    cbn; apply sanitizeHtml_delimiter_free.
  - intros H config args input Hparse; unfold entity_create.
    rewrite Hparse.
    pose proof (entitySchema_parse_name _ _ Hparse) as Hname.
    pose proof (sanitizeHtml_length (input_name input)) as Hlen.
    unfold createEntity, bind, lift.
    rewrite validateContentSize_accepts by lia.
    rewrite <- sanitizeHtml_flat_map.
    match goal with |- context [request ?h ?c ?m ?p ?b ?w0] =>
      pose proof (request_makes_its_call h c m p b w0) as Hcall;
      destruct (request h c m p b w0) as [r w'] eqn:Hrun end.
    cbn [snd] in Hcall |- *; cbv zeta; split.
    + eexists; split; [exact Hcall|reflexivity].
    + refine (request_trace_invariant H config _ _ _ _ _ _ _ initial_world
                r w' _ Hrun);
        try (intros; discriminate); [|constructor].
      cbn; now intros n [= <-].
  - split; vm_compute; reflexivity.
Qed.

(** C10 at a name that is a script tag. *)
Lemma entity_create_escapes_script_tag :
  names_escaped
    (snd (entity_create
            (Scenario.scripted
               [ Scenario.respond 201 "Created" None (JObject []) ]
               Scenario.aborted)
            Scenario.test_config
            (JObject [ (lit "name", JString (lit "<script>alert('XSS')</script>"));
                       (lit "type", JString (lit "concept")) ])
            initial_world)).
Proof.
  apply (proj1 (proj2 (proj2 entity_create_sends_escaped_name))).
  exact names_escaped_initial.
Defined.

(** ** The log sanitizer *)

Section MatcherFacts.
Variable m : Logger.matcher.
Variable r : jsstring.
Hypothesis m_bound : forall t, (m t <= List.length t)%nat.

Lemma logger_replace_from_skip k s :
  Logger.replace_from m r k s = Logger.replace_from m r 0 (skipn k s).
Proof.
  revert k; induction s as [|c s IH]; intros [|k]; try reflexivity.
  simpl skipn; rewrite <- IH; reflexivity.
Qed.

Lemma logger_replace_miss c s :
  m (c :: s) = O ->
  Logger.replace m r (c :: s) = c :: Logger.replace m r s.
Proof. unfold Logger.replace; simpl; now intros ->. Qed.

Lemma logger_replace_hit s n :
  m s = S n ->
  Logger.replace m r s = r ++ Logger.replace m r (skipn (S n) s).
Proof.
  intros Hm; unfold Logger.replace.
  destruct s as [|c s]; [specialize (m_bound []); simpl in m_bound; lia|].
  simpl; rewrite Hm, logger_replace_from_skip; reflexivity.
Qed.

Lemma matches_in_cons c s :
  matches_in m (c :: s) = negb (Nat.eqb (m (c :: s)) 0) || matches_in m s.
Proof. reflexivity. Qed.

Lemma matches_in_suffix a b :
  matches_in m (a ++ b) = false -> matches_in m b = false.
Proof.
  induction a as [|c a IH]; [trivial|].
  change ((c :: a) ++ b) with (c :: (a ++ b)); rewrite matches_in_cons.
  intros Hs; apply orb_false_iff in Hs as [_ Hs]; auto.
Qed.

(** Without a match nothing is replaced. *)
Lemma logger_replace_absent s :
  matches_in m s = false -> Logger.replace m r s = s.
Proof.
  induction s as [|c s IH]; [reflexivity|].
  rewrite matches_in_cons; intros Hs; apply orb_false_iff in Hs as [H1 H2].
  apply negb_false_iff, Nat.eqb_eq in H1.
  now rewrite logger_replace_miss, IH.
Qed.

(** With one, the text splits at the first match: no match starts
    before it. *)
Lemma logger_replace_first s :
  matches_in m s = true ->
  exists u mt rest,
    s = u ++ mt ++ rest
    /\ mt <> []
    /\ m (mt ++ rest) = List.length mt
    /\ (forall u1 u2, u = u1 ++ u2 -> u2 <> [] -> m (u2 ++ mt ++ rest) = O)
    /\ Logger.replace m r s = u ++ r ++ Logger.replace m r rest.
Proof.
  induction s as [|c s IH]; intros Hs.
  - simpl in Hs; rewrite orb_false_r in Hs.
    apply negb_true_iff, Nat.eqb_neq in Hs.
    specialize (m_bound []); simpl in m_bound; lia.
  - destruct (m (c :: s)) as [|n] eqn:Hm.
    + rewrite matches_in_cons, Hm in Hs; simpl in Hs.
      destruct (IH Hs) as (u & mt & rest & -> & Hne & Hlen & Hfirst & Hrep).
      exists (c :: u), mt, rest; repeat split; auto.
      * intros [|x u1] u2 Hu Hu2.
        -- simpl in Hu; subst u2; exact Hm.
        -- injection Hu as _ Hu; now apply (Hfirst u1 u2).
      * rewrite logger_replace_miss by exact Hm.
        now rewrite Hrep.
    + pose proof (m_bound (c :: s)) as Hb; rewrite Hm in Hb.
      exists [], (firstn (S n) (c :: s)), (skipn (S n) (c :: s)).
      rewrite firstn_skipn; repeat split.
      * discriminate.
      * rewrite length_firstn; lia.
      * intros u1 u2 Hu Hu2; destruct u1; destruct u2; simpl in Hu;
          congruence.
      * now apply logger_replace_hit.
Qed.

End MatcherFacts.

Lemma run_length_le P s : (Logger.run_length P s <= List.length s)%nat.
Proof.
  induction s as [|c s IH]; simpl; [lia|].
  destruct (P c); simpl; lia.
Qed.

Lemma key_match_bound t : (Logger.key_match t <= List.length t)%nat.
Proof.
  unfold Logger.key_match.
  destruct (starts_with (lit "mem_") t) eqn:Hp; [|lia].
  apply starts_with_inv in Hp as [t' ->].
  change (skipn 4 (lit "mem_" ++ t')) with t'.
  pose proof (run_length_le Logger.is_key_char t').
  destruct (Logger.run_length _ t'); rewrite length_app; simpl; lia.
Qed.

Lemma extension_at_bound u e :
  Logger.extension_at u = Some e -> (e <= List.length u)%nat.
Proof.
  unfold Logger.extension_at.
  destruct u as [|c u]; [discriminate|].
  destruct (N.eqb_spec c 46) as [->|Hc].
  - destruct (starts_with (lit "ts") u) eqn:H1;
      [apply starts_with_inv in H1 as [t ->]; intros [= <-];
       simpl; lia|].
    destruct (starts_with (lit "js") u) eqn:H2;
      [apply starts_with_inv in H2 as [t ->]; intros [= <-];
       simpl; lia|].
    destruct (starts_with (lit "json") u) eqn:H3; [|discriminate].
    apply starts_with_inv in H3 as [t ->]; intros [= <-]; simpl; lia.
  - destruct c as [|p]; [discriminate|].
    do 6 (destruct p as [p|p|]; try discriminate); congruence.
Qed.

Lemma backtrack_bound t k :
  (k <= List.length t)%nat ->
  (Logger.backtrack t k <= 1 + List.length t)%nat.
Proof.
  induction k as [|k IH]; intros Hk; cbn [Logger.backtrack]; [lia|].
  destruct (Logger.extension_at (skipn (S k) t)) as [e|] eqn:He.
  - apply extension_at_bound in He; rewrite length_skipn in He; lia.
  - apply IH; lia.
Qed.

Lemma path_match_bound t : (Logger.path_match t <= List.length t)%nat.
Proof.
  unfold Logger.path_match.
  destruct t as [|c t]; [simpl; lia|].
  destruct c as [|p]; [simpl; lia|].
  do 6 (destruct p as [p|p|]; try (simpl; lia)).
  apply backtrack_bound, run_length_le.
Qed.

Lemma location_match_bound t : (Logger.location_match t <= List.length t)%nat.
Proof.
  unfold Logger.location_match.
  destruct (starts_with (lit "at") t) eqn:Hp; [|lia].
  apply starts_with_inv in Hp as [t' ->].
  change (skipn 2 (lit "at" ++ t')) with t'.
  set (w1 := Logger.run_length Logger.is_space t').
  set (t1 := skipn w1 t').
  set (n1 := Logger.run_length (fun c => negb (Logger.is_space c)) t1).
  set (t2 := skipn n1 t1).
  set (w2 := Logger.run_length Logger.is_space t2).
  set (t3 := skipn w2 t2).
  pose proof (run_length_le Logger.is_space t') as H1.
  pose proof (run_length_le (fun c => negb (Logger.is_space c)) t1) as H2.
  pose proof (run_length_le Logger.is_space t2) as H3.
  fold w1 in H1; fold n1 in H2; fold w2 in H3.
  assert (L1 : List.length t1 = (List.length t' - w1)%nat)
    by (unfold t1; apply length_skipn).
  assert (L2 : List.length t2 = (List.length t1 - n1)%nat)
    by (unfold t2; apply length_skipn).
  assert (L3 : List.length t3 = (List.length t2 - w2)%nat)
    by (unfold t3; apply length_skipn).
  destruct w1 as [|w1']; [lia|].
  destruct n1 as [|n1']; [lia|].
  destruct w2 as [|w2']; [lia|].
  destruct t3 as [|c t4]; [lia|].
  destruct (N.eqb_spec c 40) as [->|Hc].
  - set (n2 := Logger.run_length (fun c => negb (N.eqb c 41)) t4).
    pose proof (run_length_le (fun c => negb (N.eqb c 41)) t4) as H4.
    fold n2 in H4.
    assert (L4 : List.length (skipn n2 t4) = (List.length t4 - n2)%nat)
      by apply length_skipn.
    destruct n2 as [|n2']; [lia|].
    destruct (skipn (S n2') t4) as [|d t5]; [lia|].
    simpl in L3, L4.
    destruct d as [|p]; [lia|].
    do 6 (destruct p as [p|p|]; try lia).
    rewrite length_app; simpl; lia.
  - destruct c as [|p]; [lia|].
    do 6 (destruct p as [p|p|]; try lia); congruence.
Qed.

(** *** Texts of the shape of a key *)

Lemma key_match_intro c rest :
  Logger.is_key_char c = true ->
  Logger.key_match (lit "mem_" ++ c :: rest) <> O.
Proof.
  intros Hc; unfold Logger.key_match.
  rewrite starts_with_app.
  change (skipn 4 (lit "mem_" ++ c :: rest)) with (c :: rest).
  cbn [Logger.run_length]; now rewrite Hc.
Qed.

Lemma key_match_inv t :
  Logger.key_match t <> O ->
  exists c rest, t = lit "mem_" ++ c :: rest /\ Logger.is_key_char c = true.
Proof.
  unfold Logger.key_match.
  destruct (starts_with (lit "mem_") t) eqn:Hp; [|congruence].
  apply starts_with_inv in Hp as [t' ->].
  change (skipn 4 (lit "mem_" ++ t')) with t'.
  destruct t' as [|c rest]; [simpl; congruence|].
  cbn [Logger.run_length].
  destruct (Logger.is_key_char c) eqn:Hc; [|congruence].
  intros _; now exists c, rest.
Qed.

Lemma key_like_intro a c b :
  Logger.is_key_char c = true ->
  key_like (a ++ lit "mem_" ++ c :: b) = true.
Proof.
  intros Hc; unfold key_like; induction a as [|x a IH].
  - pose proof (key_match_intro c b Hc) as Hm.
    cbn [app]; destruct (lit "mem_" ++ c :: b) eqn:E; [discriminate|].
    rewrite matches_in_cons.
    apply Nat.eqb_neq in Hm; now rewrite Hm.
  - change ((x :: a) ++ lit "mem_" ++ c :: b)
      with (x :: (a ++ lit "mem_" ++ c :: b)).
    rewrite matches_in_cons, IH; apply orb_true_r.
Qed.

Lemma key_like_inv u :
  key_like u = true ->
  exists a c b,
    u = a ++ lit "mem_" ++ c :: b /\ Logger.is_key_char c = true.
Proof.
  unfold key_like; induction u as [|x u IH].
  - simpl; discriminate.
  - rewrite matches_in_cons; intros Hu.
    apply orb_true_iff in Hu as [Hu|Hu].
    + apply negb_true_iff, Nat.eqb_neq, key_match_inv in Hu
        as (c & rest & -> & Hc).
      now exists [], c, rest.
    + destruct (IH Hu) as (a & c & b & -> & Hc).
      now exists (x :: a), c, b.
Qed.

(** Every code unit of [mem_] followed by a key character is a key
    character. *)
Lemma key_pattern_chars c d :
  Logger.is_key_char c = true ->
  In d (lit "mem_" ++ [c]) -> Logger.is_key_char d = true.
Proof.
  intros Hc Hd; apply in_app_or in Hd as [Hd|[<-|[]]]; [|exact Hc].
  vm_compute in Hd; destruct Hd as [<-|[<-|[<-|[<-|[]]]]]; reflexivity.
Qed.

Lemma key_like_includes u :
  key_like u = true ->
  exists c, Logger.is_key_char c = true
            /\ includes (lit "mem_" ++ [c]) u = true.
Proof.
  intros Hu; destruct (key_like_inv u Hu) as (a & c & b & -> & Hc).
  exists c; split; [exact Hc|].
  change (c :: b) with ([c] ++ b); rewrite (app_assoc (lit "mem_")).
  apply includes_intro.
Qed.

Lemma includes_key_like c u :
  Logger.is_key_char c = true ->
  includes (lit "mem_" ++ [c]) u = true -> key_like u = true.
Proof.
  intros Hc Hu; destruct (includes_inv _ _ Hu) as (a & b & ->).
  rewrite <- app_assoc; now apply key_like_intro.
Qed.

(** The first replacement leaves nothing of the shape of a key. *)
Lemma mask_keys_leaves_none s :
  key_like (Logger.replace Logger.key_match (lit "mem_****") s) = false.
Proof.
  remember (List.length s) as n eqn:Hn.
  assert (Hle : (List.length s <= n)%nat) by lia; clear Hn.
  revert s Hle; induction n as [|n IH]; intros s Hle.
  - destruct s; [reflexivity|simpl in Hle; lia].
  - destruct (matches_in Logger.key_match s) eqn:Hs;
      [|now rewrite logger_replace_absent by (exact key_match_bound || exact Hs)].
    destruct (logger_replace_first Logger.key_match (lit "mem_****")
                key_match_bound s Hs)
      as (u & mt & rest & -> & Hne & Hlen & Hfirst & ->).
    match goal with |- ?g = false => destruct g eqn:E; [exfalso|reflexivity] end.
    apply key_like_includes in E as (c & Hc & E).
    assert (Hmt : exists x, mt ++ rest = lit "mem_" ++ x).
    { destruct (key_match_inv (mt ++ rest)) as (c' & x & Hx & _).
      - rewrite Hlen; destruct mt; [congruence|discriminate].
      - eexists; exact Hx. }
    destruct Hmt as [x Hx].
    change (lit "mem_****") with (lit "mem_" ++ 42%N :: [42; 42; 42]%N) in E.
    rewrite <- (app_assoc (lit "mem_")), app_assoc in E.
    change ((42%N :: [42; 42; 42]%N) ++ ?y)
      with (42%N :: ([42; 42; 42]%N ++ y)) in E.
    assert (Hstar : ~ In 42%N (lit "mem_" ++ [c])).
    { intros Hin; apply (key_pattern_chars c _ Hc) in Hin; discriminate. }
    apply includes_split in E as [E|E]; [| |exact Hstar].
    + apply includes_inv in E as (a & b & E).
      apply app_eq_app in E as [l [[Hu Hl] | [Ha Hl]]].
      * destruct l as [|y l].
        { apply (f_equal (@List.length _)) in Hl.
          rewrite !length_app in Hl; simpl in Hl; lia. }
        specialize (Hfirst a (y :: l) Hu ltac:(discriminate)).
        rewrite Hx, app_assoc, <- Hl in Hfirst.
        rewrite <- !app_assoc in Hfirst.
        now apply (key_match_intro c (b ++ x)) in Hc.
      * apply (f_equal (@List.length _)) in Hl.
        rewrite !length_app in Hl; simpl in Hl; lia.
    + simpl app in E.
      rewrite !includes_cons_skip in E by (exact Hstar || discriminate).
      apply (includes_key_like c) in E; [|exact Hc].
      rewrite IH in E; [discriminate|].
      rewrite !length_app in Hle.
      destruct mt; [congruence|simpl in Hle; lia].
Qed.

(** A later replacement brings nothing of the shape of a key in, when
    every match begins with the text [pre] the replacement begins with,
    and the rest of the replacement is fenced by two code units that
    are no key characters and holds no letter m. *)
Lemma replace_keeps_key_free (m : Logger.matcher) pre d1 mid d2 :
  (forall t, (m t <= List.length t)%nat) ->
  (forall t n, m t = S n -> starts_with pre t = true) ->
  Logger.is_key_char d1 = false ->
  Logger.is_key_char d2 = false ->
  ~ In 109%N mid ->
  forall s,
    key_like s = false ->
    key_like (Logger.replace m (pre ++ d1 :: mid ++ [d2]) s) = false.
Proof.
  intros Hbound Hpre Hd1 Hd2 Hmid s.
  remember (List.length s) as n eqn:Hn.
  assert (Hle : (List.length s <= n)%nat) by lia; clear Hn.
  revert s Hle; induction n as [|n IH]; intros s Hle Hfree.
  - destruct s; [reflexivity|simpl in Hle; lia].
  - destruct (matches_in m s) eqn:Hs;
      [|now rewrite logger_replace_absent by (exact Hbound || exact Hs)].
    destruct (logger_replace_first m (pre ++ d1 :: mid ++ [d2]) Hbound s Hs)
      as (u & mt & rest & -> & Hne & Hlen & Hfirst & ->).
    match goal with |- ?g = false => destruct g eqn:E; [exfalso|reflexivity] end.
    apply key_like_includes in E as (c & Hc & E).
    assert (Hnot : forall d, Logger.is_key_char d = false ->
                             ~ In d (lit "mem_" ++ [c])).
    { intros d Hd Hin; apply (key_pattern_chars c _ Hc) in Hin; congruence. }
    rewrite <- (app_assoc pre), app_assoc in E.
    change ((d1 :: mid ++ [d2]) ++ ?y) with (d1 :: ((mid ++ [d2]) ++ y)) in E.
    rewrite <- (app_assoc mid) in E.
    change ([d2] ++ ?y) with (d2 :: y) in E.
    apply includes_split in E as [E|E]; [| |now apply Hnot].
    + assert (Hx : exists x, mt ++ rest = pre ++ x).
      { destruct mt as [|y mt]; [congruence|].
        apply (starts_with_inv pre), (Hpre _ (List.length mt)).
        rewrite Hlen; reflexivity. }
      destruct Hx as [x Hx].
      apply (includes_extend _ _ x) in E.
      rewrite <- app_assoc, <- Hx in E.
      apply (includes_key_like c) in E; [congruence|exact Hc].
    + apply includes_split in E as [E|E]; [| |now apply Hnot].
      * apply Hmid; eapply includes_In; [exact E|].
        apply in_or_app; left; vm_compute; tauto.
      * apply (includes_key_like c) in E; [|exact Hc].
        rewrite IH in E; [discriminate| |].
        -- rewrite !length_app in Hle.
           destruct mt; [congruence|simpl in Hle; lia].
        -- rewrite app_assoc in Hfree.
           exact (matches_in_suffix Logger.key_match _ _ Hfree).
Qed.

Lemma path_match_head t n : Logger.path_match t = S n -> starts_with [] t = true.
Proof. reflexivity. Qed.

Lemma location_match_head t n :
  Logger.location_match t = S n -> starts_with (lit "at") t = true.
Proof.
  unfold Logger.location_match.
  destruct (starts_with (lit "at") t); [reflexivity|discriminate].
Qed.

Lemma sanitize_leaves_no_key s : key_like (Logger.sanitize s) = false.
Proof.
  unfold Logger.sanitize.
  change (lit "at <location>")
    with (lit "at" ++ 32%N :: lit "<location" ++ [62%N]).
  apply (replace_keeps_key_free Logger.location_match);
    [exact location_match_bound|exact location_match_head
    |reflexivity|reflexivity|vm_compute; intuition congruence|].
  change (lit "<file>") with ([] ++ 60%N :: lit "file" ++ [62%N]).
  apply (replace_keeps_key_free Logger.path_match);
    [exact path_match_bound|exact path_match_head
    |reflexivity|reflexivity|vm_compute; intuition congruence|].
  apply mask_keys_leaves_none.
Qed.

(** X11.  Nothing of the shape of an API key, [mem_] followed by a
    letter, digit, underscore or hyphen, is left in a text the logger
    has sanitized, the two later replacements included; and so none is
    in a line a logging method writes, message and data, when the
    timestamp holds none. *)
Theorem log_lines_show_no_key :
  (forall message, key_like (Logger.sanitize message) = false)
  /\ (forall minLevel timestamp level message data line,
        key_like timestamp = false ->
        Logger.log minLevel timestamp level message data = Some line ->
        key_like line = false).
Proof.
  split; [exact sanitize_leaves_no_key|].
  intros minLevel timestamp level message data line Hts.
  unfold Logger.log; destruct (_ <=? _); [|discriminate].
  intros [= <-]; unfold Logger.format.
  match goal with |- ?g = false => destruct g eqn:E; [exfalso|reflexivity] end.
  apply key_like_includes in E as (c & Hc & E).
  assert (Hnot : forall d, Logger.is_key_char d = false ->
                           ~ In d (lit "mem_" ++ [c])).
  { intros d Hd Hin; apply (key_pattern_chars c _ Hc) in Hin; congruence. }
  assert (Hclean : forall s, includes (lit "mem_" ++ [c]) (Logger.sanitize s)
                             = false).
  { intros s; destruct (includes _ (Logger.sanitize s)) eqn:E'; [|reflexivity].
    apply (includes_key_like c) in E'; [|exact Hc].
    now rewrite sanitize_leaves_no_key in E'. }
  assert (Htail : includes (lit "mem_" ++ [c])
                    (lit "[" ++ timestamp ++ lit "] [" ++ Logger.toUpperCase level
                       ++ lit "] "
                       ++ match data with
                          | Some text =>
                              Logger.sanitize message ++ [10%N]
                                ++ Logger.sanitize text
                          | None => Logger.sanitize message
                          end) = true).
  { destruct data as [text|]; [|exact E].
    now rewrite <- !app_assoc in E. }
  clear E; rename Htail into E.
  change (lit "[" ++ ?x) with (91%N :: x) in E.
  rewrite includes_cons_skip in E by (discriminate || now apply Hnot).
  change (lit "] [" ++ ?x) with (93%N :: (lit " [" ++ x)) in E.
  apply includes_split in E as [E|E]; [| |now apply Hnot].
  - apply (includes_key_like c) in E; [congruence|exact Hc].
  - rewrite (app_assoc (lit " [")), (app_assoc (lit " [" ++ _)) in E.
    change (lit "mem_" ++ [c]) with (109%N :: (lit "em_" ++ [c])) in E.
    rewrite includes_skip_prefix in E
      by (destruct level; vm_compute; intuition congruence).
    change (109%N :: (lit "em_" ++ [c])) with (lit "mem_" ++ [c]) in E.
    destruct data as [text|]; [|now rewrite Hclean in E].
    change ([10%N] ++ ?x) with (10%N :: x) in E.
    apply includes_split in E as [E|E]; [| |now apply Hnot];
      now rewrite Hclean in E.
Qed.

(** X11 at a warning whose message and data both quote a key. *)
Lemma warning_line_shows_no_key :
  exists line,
    Logger.log Logger.info (lit "2026-02-15T10:30:00.000Z") Logger.warn
      (lit "Found keys: mem_dev_xyz123 and mem_prod_abc789")
      (Some (lit "{ apiKey: mem_test_abcdefghijklmnop }"))
    = Some line
    /\ line = lit "[2026-02-15T10:30:00.000Z] [WARN] Found keys: mem_**** and mem_****"
              ++ [10%N] ++ lit "{ apiKey: mem_**** }"
    /\ key_like line = false.
Proof.
  eexists; split; [reflexivity|split; [reflexivity|]].
  eapply (proj2 log_lines_show_no_key Logger.info
            (lit "2026-02-15T10:30:00.000Z") Logger.warn
            (lit "Found keys: mem_dev_xyz123 and mem_prod_abc789")
            (Some (lit "{ apiKey: mem_test_abcdefghijklmnop }")));
    reflexivity.
Defined.

(** *** Paths *)

Lemma run_length_all P a b :
  forallb P a = true ->
  Logger.run_length P (a ++ b) = (List.length a + Logger.run_length P b)%nat.
Proof.
  induction a as [|c a IH]; [reflexivity|].
  cbn [forallb]; intros Ha; apply andb_true_iff in Ha as [Hc Ha].
  cbn [app Logger.run_length List.length]; rewrite Hc, IH by exact Ha.
  reflexivity.
Qed.

Lemma skipn_past {A} (a b : list A) j :
  skipn (j + List.length a) (a ++ b) = skipn j b.
Proof.
  rewrite skipn_app, skipn_all2 by lia.
  replace (j + List.length a - List.length a)%nat with j by lia.
  reflexivity.
Qed.

(** On a path that ends in [.json] the match ends after [.js]. *)
Lemma path_match_json p :
  p <> [] -> forallb Logger.is_path_char p = true ->
  Logger.path_match (lit "/" ++ p ++ lit ".json")
  = S (List.length p + 3).
Proof.
  intros Hne Hp.
  change (lit "/" ++ p ++ lit ".json") with (47%N :: (p ++ lit ".json")).
  unfold Logger.path_match.
  rewrite run_length_all by exact Hp.
  change (Logger.run_length Logger.is_path_char (lit ".json")) with 5%nat.
  replace (List.length p + 5)%nat with (5 + List.length p)%nat by lia.
  destruct p as [|c p]; [congruence|].
  cbn [plus Logger.backtrack].
  pose proof (skipn_past (c :: p) (lit ".json") 5) as H5.
  pose proof (skipn_past (c :: p) (lit ".json") 4) as H4.
  pose proof (skipn_past (c :: p) (lit ".json") 3) as H3.
  pose proof (skipn_past (c :: p) (lit ".json") 2) as H2.
  pose proof (skipn_past (c :: p) (lit ".json") 1) as H1.
  pose proof (skipn_past (c :: p) (lit ".json") 0) as H0.
  cbn [plus] in H5, H4, H3, H2, H1, H0.
  rewrite H5, H4, H3, H2, H1.
  change (Logger.extension_at (skipn 5 (lit ".json"))) with (@None nat).
  change (Logger.extension_at (skipn 4 (lit ".json"))) with (@None nat).
  change (Logger.extension_at (skipn 3 (lit ".json"))) with (@None nat).
  change (Logger.extension_at (skipn 2 (lit ".json"))) with (@None nat).
  change (Logger.extension_at (skipn 1 (lit ".json"))) with (@None nat).
  cbv iota.
  cbn [List.length Logger.backtrack] in H0 |- *.
  rewrite H0.
  change (Logger.extension_at (skipn 0 (lit ".json"))) with (Some 3%nat).
  cbv iota; lia.
Qed.

(** X12.  The alternatives of the path pattern are tried in the order
    [ts], [js], [json], so a path that ends in [.json] is matched only
    up to [.js]: such a path, of path characters and with nothing of
    the shape of a key in it, is sanitized to [<file>on]. *)
Theorem sanitize_cuts_json_paths (p : jsstring) :
  p <> [] ->
  forallb Logger.is_path_char p = true ->
  key_like (lit "/" ++ p ++ lit ".json") = false ->
  Logger.sanitize (lit "/" ++ p ++ lit ".json") = lit "<file>on".
Proof.
  intros Hne Hp Hkey; unfold Logger.sanitize.
  rewrite (logger_replace_absent Logger.key_match _ _ Hkey).
  rewrite (logger_replace_hit Logger.path_match (lit "<file>")
             path_match_bound _ _ (path_match_json p Hne Hp)).
  change (lit "/" ++ p ++ lit ".json") with (47%N :: (p ++ lit ".json")).
  cbn [skipn].
  replace (List.length p + 3)%nat with (3 + List.length p)%nat by lia.
  rewrite skipn_past.
  reflexivity.
Qed.

(** X12 at the path of a package file. *)
Lemma sanitize_cuts_package_json :
  Logger.sanitize (lit "/home/user/app/package.json") = lit "<file>on".
Proof.
  apply (sanitize_cuts_json_paths (lit "home/user/app/package"));
    [discriminate|reflexivity|reflexivity].
Defined.

(** ** Agent identifier *)

(** X13.  [getAgentId] never returns the empty text: it returns the
    configured identifier when there is one, and otherwise [agent-]
    followed by the first eight code units of the host name, or the
    whole of it when it has fewer ([unknown] standing in for a host
    name that is not set or empty), 7 to 14 code units in all. *)
Theorem getAgentId_never_empty (agentId HOSTNAME : option jsstring) :
  getAgentId agentId HOSTNAME <> []
  /\ match agentId with
     | Some (c :: id) => getAgentId agentId HOSTNAME = c :: id
     | _ =>
         let hostname :=
           match HOSTNAME with
           | Some (c :: h) => c :: h
           | _ => lit "unknown"
           end in
         exists suffix,
           getAgentId agentId HOSTNAME = lit "agent-" ++ suffix
           /\ starts_with suffix hostname = true
           /\ strlen suffix = Z.min 8 (strlen hostname)
           /\ 7 <= strlen (getAgentId agentId HOSTNAME) <= 14
     end.
Proof.
  assert (Hprefix : forall h : jsstring,
             starts_with (firstn 8 h) h = true
             /\ strlen (firstn 8 h) = Z.min 8 (strlen h)).
  { intros h; split.
    - rewrite <- (firstn_skipn 8 h) at 2; apply starts_with_app.
    - unfold strlen; rewrite length_firstn; lia. }
  assert (Hgen : forall h : jsstring,
             h <> [] ->
             exists suffix,
               lit "agent-" ++ firstn 8 h = lit "agent-" ++ suffix
               /\ starts_with suffix h = true
               /\ strlen suffix = Z.min 8 (strlen h)
               /\ 7 <= strlen (lit "agent-" ++ firstn 8 h) <= 14).
  { intros h Hh; exists (firstn 8 h).
    destruct (Hprefix h) as [Hstart Hlen].
    repeat split; try assumption;
      unfold strlen in *; rewrite length_app; cbn [List.length lit];
      destruct h; [congruence| |congruence|]; simpl List.length in *; lia. }
  unfold getAgentId.
  destruct agentId as [[|c id]|]; (split; [discriminate|]); try reflexivity.
  all: destruct HOSTNAME as [[|c h]|]; cbv zeta; apply Hgen; discriminate.
Qed.
